(** * go-decimal: a shallow embedding of [decimal.go]

    The Go package represents a decimal as [integer * 10^exponent] with an
    arbitrary-precision significand ([*big.Int], possibly nil) and a machine
    [int] exponent.  Methods mutate their receiver (and [align] also its
    argument); here each method is a function from the states of the objects
    it touches to their new states.  When receiver and argument are the same
    object, the object's final state is the first component of the result
    evaluated at [(x, x)]; distinct objects do not share a significand (no
    method makes them).

    Go strings are byte sequences and are modelled as [list ascii]; [int] is
    the 64-bit two's-complement type of the usual targets, with its
    wrap-around written out; a run-time panic is [None] in the [option]
    monad. *)

From Stdlib Require Import ZArith List Ascii String Bool Lia.
From Stdlib Require Import Floats.SpecFloat.
Import ListNotations.

Local Open Scope Z_scope.

(** ** Panics: the option monad *)

Notation "x <- e ;; k" := (match e with Some x => k | None => None end)
  (at level 61, e at next level, right associativity).
Notation "' p <- e ;; k" := (match e with Some p => k | None => None end)
  (at level 61, p pattern, e at next level, right associativity).

(** ** Go's [int] and [uint] (64 bits) *)

Module GoInt.

Definition min_int : Z := - 2 ^ 63.
Definition max_int : Z := 2 ^ 63 - 1.

Definition in_int (z : Z) : Prop := min_int <= z <= max_int.

(** Two's-complement reduction of a mathematical integer to [int]. *)
Definition wrap (z : Z) : Z := (z + 2 ^ 63) mod 2 ^ 64 - 2 ^ 63.

Definition add (a b : Z) : Z := wrap (a + b).
Definition sub (a b : Z) : Z := wrap (a - b).
Definition mul (a b : Z) : Z := wrap (a * b).

(** [int(u)] for a [uint] value [u]. *)
Definition of_uint (u : Z) : Z := wrap u.

(** [len(s)] *)
Definition len {A} (s : list A) : Z := Z.of_nat (List.length s).

End GoInt.

(** ** Strings *)

Module Str.

Abbreviation t := (list ascii).

Definition lit (s : string) : t := list_ascii_of_string s.

Definition eqb (a b : t) : bool :=
  if list_eq_dec ascii_dec a b then true else false.

Fixpoint HasPrefix (s p : t) : bool :=
  match p, s with
  | [], _ => true
  | c :: p', d :: s' => Ascii.eqb c d && HasPrefix s' p'
  | _ :: _, [] => false
  end.

(** [strings.Repeat(string(c), n)]; panics on a negative count. *)
Definition Repeat (c : ascii) (n : Z) : option t :=
  if n <? 0 then None else Some (List.repeat c (Z.to_nat n)).

(** [s[lo:hi]]; panics unless [0 <= lo <= hi <= len(s)]. *)
Definition slice (s : t) (lo hi : Z) : option t :=
  if (0 <=? lo) && (lo <=? hi) && (hi <=? GoInt.len s)
  then Some (firstn (Z.to_nat (hi - lo)) (skipn (Z.to_nat lo) s))
  else None.

Fixpoint drop_while (p : ascii -> bool) (s : t) : t :=
  match s with
  | c :: s' => if p c then drop_while p s' else s
  | [] => []
  end.

(** [strings.TrimRight(s, string(c))] *)
Definition TrimRight (s : t) (c : ascii) : t :=
  rev (drop_while (Ascii.eqb c) (rev s)).

End Str.

Notation "$ s" := (Str.lit s) (at level 1, format "$ s").

(** ** Decimal digits *)

Module Digits.

Definition is_digit (c : ascii) : bool :=
  let n := N_of_ascii c in (48 <=? n)%N && (n <=? 57)%N.

Definition digit_val (c : ascii) : Z := Z.of_N (N_of_ascii c) - 48.

Definition digit_char (d : Z) : ascii := ascii_of_N (Z.to_N (48 + d)).

(** Value of a string of decimal digits, most significant first. *)
Definition value (s : Str.t) : Z :=
  fold_left (fun acc c => 10 * acc + digit_val c) s 0.

Fixpoint digits_aux (fuel : nat) (n : Z) (acc : Str.t) : Str.t :=
  match fuel with
  | O => acc
  | S f =>
      let acc' := digit_char (n mod 10) :: acc in
      if n <? 10 then acc' else digits_aux f (n / 10) acc'
  end.

(** Decimal digits of a non-negative integer, without leading zeros. *)
Definition of_Z (n : Z) : Str.t :=
  digits_aux (S (Z.to_nat (Z.log2 n))) n [].

(** Signed decimal text, as [big.Int.String], [%d] and [strconv.Itoa]
    print it. *)
Definition itoa (z : Z) : Str.t :=
  if z <? 0 then "-"%char :: of_Z (- z) else of_Z z.

(** Optional sign followed by one or more digits, nothing else: the syntax
    [big.Int.SetString(s, 10)] and [strconv.ParseInt(s, 10, 64)] accept. *)
Definition atoi (s : Str.t) : option Z :=
  let '(neg, ds) :=
    match s with
    | c :: r =>
        if Ascii.eqb c "-" then (true, r)
        else if Ascii.eqb c "+" then (false, r)
        else (false, s)
    | [] => (false, s)
    end in
  match ds with
  | [] => None
  | _ => if forallb is_digit ds
         then Some (if neg then - value ds else value ds)
         else None
  end.

End Digits.

(** ** [math/big.Int], as far as the package uses it *)

Module BigInt.

Definition Sign (z : Z) : Z := Z.sgn z.
Definition Abs (z : Z) : Z := Z.abs z.

(** [Exp(x, y, nil)]: [x^y], and 1 when [y <= 0]. *)
Definition Exp (x y : Z) : Z := if y <=? 0 then 1 else x ^ y.

Definition Cmp (a b : Z) : Z :=
  match a ?= b with Lt => -1 | Eq => 0 | Gt => 1 end.

(** [Quo] and [QuoRem] are truncated (T-) division; a zero divisor
    panics. *)
Definition Quo (a b : Z) : option Z :=
  if b =? 0 then None else Some (Z.quot a b).
Definition QuoRem (a b : Z) : option (Z * Z) :=
  if b =? 0 then None else Some (Z.quot a b, Z.rem a b).

Definition String (z : Z) : Str.t := Digits.itoa z.

(** [new(big.Int).SetString(s, 10)]: the pointer is nil on failure. *)
Definition SetString (s : Str.t) : option Z := Digits.atoi s.

End BigInt.

(** ** [strconv.ParseInt(s, 10, 64)] with the error dropped: a value out of
    range is clamped, a syntax error gives 0. *)

Definition ParseInt (s : Str.t) : Z :=
  match Digits.atoi s with
  | Some v => Z.max GoInt.min_int (Z.min GoInt.max_int v)
  | None => 0
  end.

(** ** The pattern
    [^([-+]?\d+)(\.(\d+))?([eE]([-+]?\d+))?$]

    The pattern is anchored at both ends and each repetition is followed by
    something that is not a digit, so the leftmost-first match is the greedy
    left-to-right scan below.  [FindStringSubmatch] returns the whole match
    and the five groups (an unmatched group is the empty string), or nil. *)

Module Pattern.

Fixpoint span (p : ascii -> bool) (s : Str.t) : Str.t * Str.t :=
  match s with
  | c :: s' =>
      if p c then let '(a, b) := span p s' in (c :: a, b) else ([], s)
  | [] => ([], [])
  end.

Definition is_sign (c : ascii) : bool :=
  Ascii.eqb c "-" || Ascii.eqb c "+".

Definition is_exp_marker (c : ascii) : bool :=
  Ascii.eqb c "e" || Ascii.eqb c "E".

(** [[-+]?\d+] at the head of [s]: the text matched and the rest. *)
Definition signed_digits (s : Str.t) : option (Str.t * Str.t) :=
  let '(sg, r) :=
    match s with
    | c :: r => if is_sign c then ([c], r) else ([], s)
    | [] => ([], [])
    end in
  let '(ds, r') := span Digits.is_digit r in
  match ds with
  | [] => None
  | _ => Some (sg ++ ds, r')
  end.

(** [(\.(\d+))?]: groups 2 and 3 and the rest. *)
Definition fraction (s : Str.t) : Str.t * Str.t * Str.t :=
  match s with
  | c :: r =>
      if Ascii.eqb c "." then
        let '(ds, r') := span Digits.is_digit r in
        match ds with
        | [] => ([], [], s)
        | _ => (c :: ds, ds, r')
        end
      else ([], [], s)
  | [] => ([], [], [])
  end.

(** [([eE]([-+]?\d+))?]: groups 4 and 5 and the rest. *)
Definition exponent_part (s : Str.t) : Str.t * Str.t * Str.t :=
  match s with
  | c :: r =>
      if is_exp_marker c then
        match signed_digits r with
        | Some (ds, r') => (c :: ds, ds, r')
        | None => ([], [], s)
        end
      else ([], [], s)
  | [] => ([], [], [])
  end.

Definition FindStringSubmatch (s : Str.t) : list Str.t :=
  match signed_digits s with
  | None => []
  | Some (g1, r1) =>
      let '(g2, g3, r2) := fraction r1 in
      let '(g4, g5, r3) := exponent_part r2 in
      match r3 with
      | [] => [s; g1; g2; g3; g4; g5]
      | _ => []
      end
  end.

End Pattern.

(** ** The decimal type *)

Record Decimal := mkDecimal {
  integer : option Z;      (* *big.Int, nil is None *)
  exponent : Z             (* int *)
}.

(** [new(Decimal)] *)
Definition new_Decimal : Decimal := mkDecimal None 0.

(** Dereferencing the significand pointer: a nil pointer panics. *)
Definition deref (d : Decimal) : option Z := integer d.

Definition ensureInitialized (d : Decimal) : Decimal :=
  match integer d with
  | None => mkDecimal (Some 0) (exponent d)
  | Some _ => d
  end.

Definition Sign (d : Decimal) : option (Z * Decimal) :=
  let d := ensureInitialized d in
  i <- deref d ;;
  Some (BigInt.Sign i, d).

Definition IsZero (d : Decimal) : option (bool * Decimal) :=
  let d := ensureInitialized d in
  i <- deref d ;;
  Some (BigInt.Sign i =? 0, d).

Definition SetInt64 (x : Decimal) (y : Z) : option Decimal :=
  let x := ensureInitialized x in
  _ <- deref x ;;
  Some (mkDecimal (Some y) 0).

(** [SetString]: the receiver's new state and the success flag (the pointer
    returned is nil exactly when the flag is false).  [big.Int.SetString]
    leaves its receiver undefined when it fails; that case is a fault here. *)
Definition SetString (x : Decimal) (y : Str.t) : option (Decimal * bool) :=
  let x := ensureInitialized x in
  let matches := Pattern.FindStringSubmatch y in
  if negb (GoInt.len matches =? 6) then Some (x, false) else
  let decimals := Str.TrimRight (nth 3 matches []) "0" in
  let integer := nth 1 matches [] ++ decimals in
  let exponent := GoInt.mul (GoInt.len decimals) (-1) in
  let exponent :=
    if GoInt.len (nth 5 matches []) >? 0
    then GoInt.add exponent (ParseInt (nth 5 matches []))
    else exponent in
  _ <- deref x ;;
  v <- BigInt.SetString integer ;;
  Some (mkDecimal (Some v) exponent, true).

Definition Copy (x y : Decimal) : option (Decimal * Decimal) :=
  let x := ensureInitialized x in
  let y := ensureInitialized y in
  _ <- deref x ;;
  yi <- deref y ;;
  Some (mkDecimal (Some yi) (exponent y), y).

Definition Abs (d : Decimal) : option Decimal :=
  let d := ensureInitialized d in
  i <- deref d ;;
  Some (mkDecimal (Some (BigInt.Abs i)) (exponent d)).

Definition Neg (d : Decimal) : option Decimal :=
  let d := ensureInitialized d in
  i <- deref d ;;
  Some (mkDecimal (Some (- i)) (exponent d)).

(** [x.align(y)]: the new states of [x] and [y]. *)
Definition align (x y : Decimal) : option (Decimal * Decimal) :=
  if negb (exponent x =? exponent y) then
    let diff :=
      BigInt.Abs (BigInt.Abs (exponent x) - BigInt.Abs (exponent y)) in
    if exponent x >? exponent y then
      xi <- deref x ;;
      Some (mkDecimal (Some (xi * BigInt.Exp 10 diff)) (exponent y), y)
    else
      yi <- deref y ;;
      Some (x, mkDecimal (Some (yi * BigInt.Exp 10 diff)) (exponent x))
  else Some (x, y).

(** [x.Cmp(y)]: the result and the new states of [x] and [y]. *)
Definition Cmp (x y : Decimal) : option (Z * (Decimal * Decimal)) :=
  let x := ensureInitialized x in
  let y := ensureInitialized y in
  '(x, y) <- align x y ;;
  xi <- deref x ;;
  yi <- deref y ;;
  Some (BigInt.Cmp xi yi, (x, y)).

Definition Add (x y : Decimal) : option (Decimal * Decimal) :=
  let x := ensureInitialized x in
  let y := ensureInitialized y in
  '(x, y) <- align x y ;;
  xi <- deref x ;;
  yi <- deref y ;;
  Some (mkDecimal (Some (xi + yi)) (exponent x), y).

Definition Sub (x y : Decimal) : option (Decimal * Decimal) :=
  let x := ensureInitialized x in
  let y := ensureInitialized y in
  '(x, y) <- align x y ;;
  xi <- deref x ;;
  yi <- deref y ;;
  Some (mkDecimal (Some (xi - yi)) (exponent x), y).

Definition Mul (x y : Decimal) : option (Decimal * Decimal) :=
  let x := ensureInitialized x in
  let y := ensureInitialized y in
  yi <- deref y ;;
  if BigInt.Sign yi =? 0 then
    _ <- deref x ;;
    Some (mkDecimal (Some 0) 0, y)
  else
    xi <- deref x ;;
    Some (mkDecimal (Some (xi * yi)) (GoInt.add (exponent x) (exponent y)), y).

(** *** Division *)

Section Division.

(** The package variable [MaxDecimalDigits] (a [uint]). *)
Variable MaxDecimalDigits : Z.

(** The state of the long-division loop: [r], [buf] and [exp]. *)
Definition quo_state : Type := Z * Str.t * Z.

Definition quo_cond (st : quo_state) : bool :=
  let '(r, _, exp) := st in
  negb (BigInt.Sign r =? 0)
  && (GoInt.mul exp (-1) <? GoInt.of_uint MaxDecimalDigits).

Definition quo_body (yi : Z) (st : quo_state) : option quo_state :=
  let '(r, buf, exp) := st in
  let r := r * 10 in
  '(z, r) <- BigInt.QuoRem r yi ;;
  Some (r, buf ++ BigInt.String z, GoInt.sub exp 1).

(** The [for] loop, [None] when the fuel runs out or the body panics. *)
Fixpoint quo_loop (fuel : nat) (yi : Z) (st : quo_state) : option quo_state :=
  if quo_cond st then
    match fuel with
    | O => None
    | S f => st' <- quo_body yi st ;; quo_loop f yi st'
    end
  else Some st.

(** A number of iterations the loop cannot exceed when it starts at [exp]. *)
Definition quo_fuel (exp : Z) : nat :=
  Z.to_nat (if exp =? GoInt.min_int
            then 2 ^ 63 + GoInt.of_uint MaxDecimalDigits + 1
            else Z.max 0 (exp + GoInt.of_uint MaxDecimalDigits)).

(** The inexact branch up to the end of the loop: the final loop state. *)
Definition quo_digits (xi0 yi0 ex ey : Z) : option quo_state :=
  let buf := if BigInt.Sign xi0 * BigInt.Sign yi0 =? -1 then $"-" else [] in
  let xi := BigInt.Abs xi0 in
  let yi := BigInt.Abs yi0 in
  let exp := GoInt.sub ex ey in
  '(z, r) <- BigInt.QuoRem xi yi ;;
  let buf := buf ++ BigInt.String z in
  quo_loop (quo_fuel exp) yi (r, buf, exp).

Definition Quo (x y : Decimal) : option (Decimal * Decimal) :=
  let x := ensureInitialized x in
  let y := ensureInitialized y in
  yi0 <- deref y ;;
  if BigInt.Sign yi0 =? 0 then
    _ <- deref x ;;
    Some (mkDecimal (Some 0) 0, y)
  else
    xi0 <- deref x ;;
    '(z, r) <- BigInt.QuoRem xi0 yi0 ;;
    if BigInt.Sign r =? 0 then
      Some (mkDecimal (Some z) (GoInt.sub (exponent x) (exponent y)), y)
    else
      '(_, buf, exp) <- quo_digits xi0 yi0 (exponent x) (exponent y) ;;
      let str := buf ++ $"e" ++ Digits.itoa exp in
      '(x, _) <- SetString x str ;;
      Some (x, y).

Definition Div (x y : Decimal) : option (Decimal * Decimal) := Quo x y.

End Division.

Definition MaxDecimalDigits_default : Z := 200.

(** *** Rounding *)

Definition one_of (s : Str.t) (l : list string) : bool :=
  existsb (fun c => Str.eqb s $c) l.

Definition RoundToNearestEven (d : Decimal) (precision : Z) : option Decimal :=
  let d := ensureInitialized d in
  let prec := GoInt.of_uint precision in
  '(zero, d) <- IsZero d ;;
  if zero || (exponent d >? 0) || (GoInt.mul (exponent d) (-1) <=? prec)
  then Some d else
  i <- deref d ;;
  let str := BigInt.String i in
  '(sign, str) <-
    (if Str.HasPrefix str $"-"
     then s <- Str.slice str 1 (GoInt.len str) ;; Some ($"-", s)
     else Some ([], str)) ;;
  str <-
    (if GoInt.len str <? GoInt.mul (exponent d) (-1)
     then pad <- Str.Repeat "0"
                   (GoInt.add (GoInt.sub (GoInt.mul (exponent d) (-1))
                                         (GoInt.len str)) 1) ;;
          Some (pad ++ str)
     else Some str) ;;
  part1 <- Str.slice str 0 (GoInt.add (GoInt.len str) (exponent d)) ;;
  part2 <- Str.slice str (GoInt.len part1) (GoInt.len str) ;;
  digit <- Str.slice part2 prec (GoInt.add prec 1) ;;
  isRoundUp <-
    (if one_of digit ["6"; "7"; "8"; "9"]%string then Some true
     else if one_of digit ["5"]%string then
       if GoInt.len part2 >? GoInt.add prec 1 then Some true
       else
         neighbor <-
           (if prec =? 0
            then Str.slice part1 (GoInt.sub (GoInt.len part1) 1)
                           (GoInt.len part1)
            else Str.slice part2 (GoInt.sub prec 1) prec) ;;
         Some (one_of neighbor ["1"; "3"; "5"; "7"; "9"]%string)
     else Some false) ;;
  front <- Str.slice part2 0 prec ;;
  let z := BigInt.SetString (sign ++ part1 ++ front) in
  z <- (if isRoundUp : bool
        then v <- z ;; Some (Some (v + BigInt.Sign i))
        else Some z) ;;
  Some (mkDecimal z (GoInt.mul prec (-1))).

Definition Round (d : Decimal) (precision : Z) : option Decimal :=
  RoundToNearestEven d precision.

Definition RoundToNearestAway (d : Decimal) (precision : Z) : option Decimal :=
  let d := ensureInitialized d in
  let prec := GoInt.of_uint precision in
  '(zero, d) <- IsZero d ;;
  if zero || (exponent d >? 0) || (GoInt.mul (exponent d) (-1) <=? prec)
  then Some d else
  let diff := BigInt.Abs (exponent d) - GoInt.add prec 1 in
  i <- deref d ;;
  i <- BigInt.Quo i (BigInt.Exp 10 diff) ;;
  let factor := if BigInt.Sign i =? -1 then - 5 else 5 in
  i <- BigInt.Quo (i + factor) 10 ;;
  Some (mkDecimal (Some i) (GoInt.mul prec (-1))).

Definition RoundToZero (d : Decimal) (precision : Z) : option Decimal :=
  let d := ensureInitialized d in
  let prec := GoInt.of_uint precision in
  '(zero, d) <- IsZero d ;;
  if zero || (exponent d >? 0) || (GoInt.mul (exponent d) (-1) <=? prec)
  then Some d else
  let diff := BigInt.Abs (exponent d) - prec in
  i <- deref d ;;
  i <- BigInt.Quo i (BigInt.Exp 10 diff) ;;
  Some (mkDecimal (Some i) (GoInt.mul prec (-1))).

Definition RoundAwayFromZero (d : Decimal) (precision : Z) : option Decimal :=
  let d := ensureInitialized d in
  let prec := GoInt.of_uint precision in
  '(zero, d) <- IsZero d ;;
  if zero || (exponent d >? 0) || (GoInt.mul (exponent d) (-1) <=? prec)
  then Some d else
  i <- deref d ;;
  let sign := BigInt.Sign i in
  let diff := BigInt.Abs (exponent d) - prec in
  '(q, r) <- BigInt.QuoRem i (BigInt.Exp 10 diff) ;;
  let q := if negb (BigInt.Sign r =? 0) then q + GoInt.mul 1 sign else q in
  Some (mkDecimal (Some q) (GoInt.mul prec (-1))).

(** *** Constructors *)

(** [strconv.FormatFloat(y, 'f', -1, 64)]: fixed text for the non-finite
    values; the shortest-digits text of the finite ones is left to an
    argument. *)
Section Float.

Variable format_finite : spec_float -> Str.t.

Definition FormatFloat (y : spec_float) : Str.t :=
  match y with
  | S754_nan => $"NaN"
  | S754_infinity false => $"+Inf"
  | S754_infinity true => $"-Inf"
  | _ => format_finite y
  end.

Definition SetFloat64 (x : Decimal) (y : spec_float) : option Decimal :=
  let x := ensureInitialized x in
  '(x, _) <- SetString x (FormatFloat y) ;;
  Some x.

Definition New (number : spec_float) : option Decimal :=
  SetFloat64 new_Decimal number.

End Float.

Definition non_finite (y : spec_float) : bool :=
  match y with
  | S754_nan | S754_infinity _ => true
  | _ => false
  end.

(** The error of [Parse], carrying the rejected text. *)
Inductive error := InvalidDecimalString (str : Str.t).

Definition Parse (str : Str.t) : option (Decimal + error) :=
  '(d, ok) <- SetString new_Decimal str ;;
  if ok : bool then Some (inl d) else Some (inr (InvalidDecimalString str)).

Definition MustParse (str : Str.t) : option Decimal :=
  r <- Parse str ;;
  match r with
  | inl d => Some d
  | inr _ => None
  end.

(** [d.String()] *)
Definition String (d : Decimal) : option (Str.t * Decimal) :=
  let d := ensureInitialized d in
  i <- deref d ;;
  if BigInt.Cmp i 0 =? 0 then Some ($"0", d) else
  let str := BigInt.String i in
  if exponent d =? 0 then Some (str, d) else
  if exponent d >? 0 then
    pad <- Str.Repeat "0" (exponent d) ;; Some (str ++ pad, d)
  else
    '(buf, str) <-
      (if Str.HasPrefix str $"-"
       then s <- Str.slice str 1 (GoInt.len str) ;; Some ($"-", s)
       else Some ([], str)) ;;
    let p := GoInt.sub (GoInt.len str) (GoInt.mul (exponent d) (-1)) in
    if p <=? 0 then
      pad <- Str.Repeat "0" (GoInt.mul p (-1)) ;;
      Some (buf ++ $"0." ++ pad ++ Str.TrimRight str "0", d)
    else
      ip <- Str.slice str 0 p ;;
      rest <- Str.slice str p (GoInt.len str) ;;
      let decimals := Str.TrimRight rest "0" in
      if GoInt.len decimals >? 0
      then Some (buf ++ ip ++ $"." ++ decimals, d)
      else Some (buf ++ ip, d).

(** [Truncate] and [RoundDown] are [RoundToZero]; [RoundUp] is
    [RoundAwayFromZero]. *)
Definition Truncate (d : Decimal) (precision : Z) : option Decimal :=
  RoundToZero d precision.

Definition RoundDown (d : Decimal) (precision : Z) : option Decimal :=
  RoundToZero d precision.

Definition RoundUp (d : Decimal) (precision : Z) : option Decimal :=
  RoundAwayFromZero d precision.



(** ** The numeric value of a decimal

    A nil significand is read as zero.  [scaled d c] is the value of [d] in
    units of [10^c], an integer whenever [c <= exponent d]; two decimals are
    compared in units of the smaller of their exponents. *)

Definition sig (d : Decimal) : Z :=
  match integer d with
  | Some z => z
  | None => 0
  end.

Definition scaled (d : Decimal) (c : Z) : Z := sig d * 10 ^ (exponent d - c).

Definition num_compare (x y : Decimal) : comparison :=
  let c := Z.min (exponent x) (exponent y) in
  scaled x c ?= scaled y c.

Definition num_eq (x y : Decimal) : Prop := num_compare x y = Eq.

(** The result [Cmp] documents: -1, 0 or +1. *)
Definition cmp_of (c : comparison) : Z :=
  match c with Lt => -1 | Eq => 0 | Gt => 1 end.

(** Number of digits after the decimal point that the pair
    (significand, exponent) stands for. *)
Definition frac_digits (d : Decimal) : Z := Z.max 0 (- exponent d).

(** ** Shapes of text used in the statements *)

(** A string that does not begin with a digit. *)
Definition no_digit_ahead (s : Str.t) : Prop :=
  match s with
  | c :: _ => Digits.is_digit c = false
  | [] => True
  end.

(** Text that [[-+]?\d+] can match: an optional sign and at least one
    digit. *)
Definition signed_number (g : Str.t) : Prop :=
  exists sg ds,
    g = sg ++ ds
    /\ (sg = [] \/ exists c, sg = [c] /\ Pattern.is_sign c = true)
    /\ ds <> [] /\ forallb Digits.is_digit ds = true.

(** What the pattern denotes: [s] is a signed number [g1], then group 2,
    either absent or a point and the digits [g3], then group 4, either
    absent or an exponent marker and the signed number [g5]. *)
Definition matches_pattern (s g1 g2 g3 g4 g5 : Str.t) : Prop :=
  s = g1 ++ g2 ++ g4
  /\ signed_number g1
  /\ ((g2 = [] /\ g3 = [])
      \/ (g2 = "."%char :: g3 /\ g3 <> []
          /\ forallb Digits.is_digit g3 = true))
  /\ ((g4 = [] /\ g5 = [])
      \/ (exists c, Pattern.is_exp_marker c = true /\ g4 = c :: g5
                    /\ signed_number g5)).

(** Text of the grammar: some decomposition into groups exists. *)
Definition in_grammar (s : Str.t) : Prop :=
  exists g1 g2 g3 g4 g5, matches_pattern s g1 g2 g3 g4 g5.

(** The guard shared by the four rounding methods, on an initialised
    receiver: nothing to round. *)
Definition rounding_needless (d : Decimal) (precision : Z) : bool :=
  (BigInt.Sign (sig d) =? 0) || (exponent d >? 0)
  || (GoInt.mul (exponent d) (-1) <=? GoInt.of_uint precision).

(** The sign of an inexact quotient, as text and as a factor. *)
Definition quo_sign_text (xi0 yi0 : Z) : Str.t :=
  if BigInt.Sign xi0 * BigInt.Sign yi0 =? -1 then $"-" else [].

Definition quo_sign (xi0 yi0 : Z) : Z :=
  if BigInt.Sign xi0 * BigInt.Sign yi0 =? -1 then -1 else 1.

(** * Facts *)

(** ** Machine integers *)

Lemma wrap_id z : GoInt.in_int z -> GoInt.wrap z = z.
Proof.
  unfold GoInt.in_int, GoInt.wrap, GoInt.min_int, GoInt.max_int. intros H.
  rewrite Z.mod_small; lia.
Qed.

Lemma wrap_in_int z : GoInt.in_int (GoInt.wrap z).
Proof.
  unfold GoInt.in_int, GoInt.wrap, GoInt.min_int, GoInt.max_int.
  pose proof (Z.mod_pos_bound (z + 2 ^ 63) (2 ^ 64)). lia.
Qed.

Lemma add_exact a b : GoInt.in_int (a + b) -> GoInt.add a b = a + b.
Proof. apply wrap_id. Qed.

Lemma sub_exact a b : GoInt.in_int (a - b) -> GoInt.sub a b = a - b.
Proof. apply wrap_id. Qed.

Lemma neg_exact a :
  GoInt.in_int a -> a <> GoInt.min_int -> GoInt.mul a (-1) = - a.
Proof.
  intros H Hn. unfold GoInt.mul. replace (a * -1) with (- a) by lia.
  apply wrap_id. unfold GoInt.in_int, GoInt.min_int, GoInt.max_int in *. lia.
Qed.

Lemma neg_min_int : GoInt.mul GoInt.min_int (-1) = GoInt.min_int.
Proof. reflexivity. Qed.

Lemma len_app {A} (s t : list A) : GoInt.len (s ++ t) = GoInt.len s + GoInt.len t.
Proof. unfold GoInt.len. rewrite length_app. lia. Qed.

Lemma len_nonneg {A} (s : list A) : 0 <= GoInt.len s.
Proof. unfold GoInt.len. lia. Qed.

(** ** Digits *)

Lemma digit_val_char d : 0 <= d <= 9 -> Digits.digit_val (Digits.digit_char d) = d.
Proof.
  intros H. unfold Digits.digit_val, Digits.digit_char.
  rewrite N_ascii_embedding; lia.
Qed.

Lemma is_digit_char d : 0 <= d <= 9 -> Digits.is_digit (Digits.digit_char d) = true.
Proof.
  intros H. unfold Digits.is_digit, Digits.digit_char.
  rewrite N_ascii_embedding by lia.
  apply andb_true_intro; split; apply N.leb_le; lia.
Qed.

Lemma is_digit_val c : Digits.is_digit c = true -> 0 <= Digits.digit_val c <= 9.
Proof.
  unfold Digits.is_digit, Digits.digit_val. intros H.
  apply andb_prop in H as [H1 H2].
  apply N.leb_le in H1, H2. lia.
Qed.

Lemma value_snoc s c :
  Digits.value (s ++ [c]) = 10 * Digits.value s + Digits.digit_val c.
Proof. unfold Digits.value. rewrite fold_left_app. reflexivity. Qed.

Lemma value_app s t :
  Digits.value (s ++ t) = Digits.value s * 10 ^ GoInt.len t + Digits.value t.
Proof.
  induction t as [|c t IH] using rev_ind.
  - rewrite app_nil_r. unfold GoInt.len. simpl. unfold Digits.value at 3. simpl. lia.
  - rewrite app_assoc, !value_snoc, IH, len_app.
    rewrite Z.pow_add_r by (unfold GoInt.len; simpl; lia).
    change (GoInt.len [c]) with 1. lia.
Qed.

Lemma value_nonneg s : forallb Digits.is_digit s = true -> 0 <= Digits.value s.
Proof.
  induction s as [|c s IH] using rev_ind; intros H.
  - unfold Digits.value. simpl. lia.
  - rewrite forallb_app in H. apply andb_prop in H as [H1 H2].
    simpl in H2. rewrite andb_true_r in H2.
    rewrite value_snoc. pose proof (is_digit_val _ H2). specialize (IH H1). lia.
Qed.

Lemma digits_aux_spec fuel : forall n acc,
  0 <= n < 2 ^ Z.of_nat fuel ->
  exists ds,
    Digits.digits_aux fuel n acc = ds ++ acc
    /\ forallb Digits.is_digit ds = true
    /\ Digits.value ds = n
    /\ (0 < n -> ds <> [])
    /\ (n < 10 -> fuel <> O -> ds = [Digits.digit_char n]).
Proof.
  induction fuel as [|f IH]; intros n acc Hn.
  - exists []. change (2 ^ Z.of_nat 0) with 1 in Hn.
    assert (n = 0) by lia. subst n. simpl.
    repeat split; try reflexivity; try lia.
  - cbn [Digits.digits_aux].
    assert (Hm : 0 <= n mod 10 <= 9) by (pose proof (Z.mod_pos_bound n 10); lia).
    destruct (n <? 10) eqn:E.
    + apply Z.ltb_lt in E. rewrite Z.mod_small by lia.
      exists [Digits.digit_char n]. repeat split.
      * simpl. rewrite is_digit_char by lia. reflexivity.
      * unfold Digits.value. simpl. rewrite digit_val_char; lia.
      * discriminate.
    + apply Z.ltb_ge in E.
      destruct (IH (n / 10) (Digits.digit_char (n mod 10) :: acc)) as (ds & E1 & E2 & E3 & E4 & _).
      { split; [apply Z.div_pos; lia|].
        apply Z.div_lt_upper_bound; [lia|].
        rewrite Nat2Z.inj_succ, Z.pow_succ_r in Hn by lia. lia. }
      exists (ds ++ [Digits.digit_char (n mod 10)]). repeat split.
      * rewrite E1, <- app_assoc. reflexivity.
      * rewrite forallb_app, E2. simpl. rewrite is_digit_char by lia. reflexivity.
      * rewrite value_snoc, E3, digit_val_char by lia.
        pose proof (Z.div_mod n 10). lia.
      * intros _ H. apply app_eq_nil in H as [_ H]. discriminate.
      * lia.
Qed.

Lemma of_Z_spec n :
  0 <= n ->
  forallb Digits.is_digit (Digits.of_Z n) = true
  /\ Digits.value (Digits.of_Z n) = n
  /\ Digits.of_Z n <> []
  /\ (n < 10 -> Digits.of_Z n = [Digits.digit_char n]).
Proof.
  intros Hn. unfold Digits.of_Z.
  destruct (digits_aux_spec (S (Z.to_nat (Z.log2 n))) n []) as (ds & E1 & E2 & E3 & E4 & E5).
  { split; [lia|]. rewrite Nat2Z.inj_succ, Z2Nat.id by apply Z.log2_nonneg.
    destruct (Z.eq_dec n 0) as [->|]; [reflexivity|].
    apply Z.log2_spec. lia. }
  rewrite app_nil_r in E1. rewrite E1. repeat split; auto.
  destruct (Z.eq_dec n 0) as [->|].
  - rewrite E5 by (try lia; discriminate). discriminate.
  - apply E4. lia.
Qed.

Lemma digit_not_special c :
  Digits.is_digit c = true ->
  Ascii.eqb c "-" = false /\ Ascii.eqb c "+" = false
  /\ Ascii.eqb c "." = false /\ Pattern.is_exp_marker c = false.
Proof.
  destruct c as [[] [] [] [] [] [] [] []]; intros H;
    solve [discriminate H | repeat split; reflexivity].
Qed.

Lemma atoi_digits ds :
  ds <> [] -> forallb Digits.is_digit ds = true ->
  Digits.atoi ds = Some (Digits.value ds).
Proof.
  intros Hne Hd. unfold Digits.atoi.
  destruct ds as [|c r]; [congruence|].
  pose proof Hd as Hd'. simpl in Hd'. apply andb_prop in Hd' as [Hc _].
  destruct (digit_not_special c Hc) as (-> & -> & _).
  rewrite Hd. reflexivity.
Qed.

Lemma atoi_signed c ds :
  Pattern.is_sign c = true ->
  ds <> [] -> forallb Digits.is_digit ds = true ->
  Digits.atoi (c :: ds) =
    Some (if Ascii.eqb c "-" then - Digits.value ds else Digits.value ds).
Proof.
  intros Hs Hne Hd. unfold Digits.atoi, Pattern.is_sign in *.
  destruct (Ascii.eqb c "-") eqn:E1.
  - destruct ds; [congruence|]. rewrite Hd. reflexivity.
  - simpl in Hs. rewrite Hs. destruct ds; [congruence|]. rewrite Hd. reflexivity.
Qed.

Lemma atoi_itoa z : Digits.atoi (Digits.itoa z) = Some z.
Proof.
  unfold Digits.itoa. destruct (z <? 0) eqn:E.
  - apply Z.ltb_lt in E.
    destruct (of_Z_spec (- z)) as (H1 & H2 & H3 & _); [lia|].
    rewrite atoi_signed by (auto; reflexivity).
    simpl. rewrite H2. f_equal. lia.
  - apply Z.ltb_ge in E.
    destruct (of_Z_spec z) as (H1 & H2 & H3 & _); [lia|].
    rewrite atoi_digits by auto. rewrite H2. reflexivity.
Qed.

Lemma ParseInt_itoa z : GoInt.in_int z -> ParseInt (Digits.itoa z) = z.
Proof.
  intros H. unfold ParseInt. rewrite atoi_itoa.
  unfold GoInt.in_int in H. lia.
Qed.

(** ** The pattern *)

Lemma span_digits ds rest :
  forallb Digits.is_digit ds = true -> no_digit_ahead rest ->
  Pattern.span Digits.is_digit (ds ++ rest) = (ds, rest).
Proof.
  intros Hd Hr. induction ds as [|c ds IH]; cbn [app forallb Pattern.span] in *.
  - destruct rest as [|c r]; [reflexivity|].
    cbn [Pattern.span no_digit_ahead] in *. rewrite Hr. reflexivity.
  - apply andb_prop in Hd as [Hc Hd]. rewrite Hc, (IH Hd). reflexivity.
Qed.

Lemma span_spec p s a b :
  Pattern.span p s = (a, b) ->
  s = a ++ b /\ forallb p a = true
  /\ match b with c :: _ => p c = false | [] => True end.
Proof.
  revert a b. induction s as [|c s IH]; intros a b H; simpl in H.
  - inversion H. repeat split.
  - destruct (p c) eqn:E.
    + destruct (Pattern.span p s) as [a' b'] eqn:E'. inversion H; subst.
      destruct (IH a' b eq_refl) as (-> & H1 & H2).
      repeat split; auto. simpl. rewrite E, H1. reflexivity.
    + inversion H; subst. repeat split. exact E.
Qed.

Lemma signed_digits_spec s g r :
  Pattern.signed_digits s = Some (g, r) ->
  s = g ++ r /\ signed_number g /\ no_digit_ahead r.
Proof.
  unfold Pattern.signed_digits. intros H.
  destruct s as [|c s'].
  - simpl in H. discriminate.
  - destruct (Pattern.is_sign c) eqn:Ec.
    + destruct (Pattern.span Digits.is_digit s') as [ds r'] eqn:Es.
      destruct (span_spec _ _ _ _ Es) as (-> & Hd & Hr).
      destruct ds as [|d ds]; [discriminate|]. inversion H; subst.
      repeat split; auto.
      exists [c], (d :: ds). repeat split; auto; [right; eauto|discriminate].
    + destruct (Pattern.span Digits.is_digit (c :: s')) as [ds r'] eqn:Es.
      destruct (span_spec _ _ _ _ Es) as (E & Hd & Hr).
      destruct ds as [|d ds]; [discriminate|]. inversion H; subst.
      repeat split; auto.
      exists [], (d :: ds). repeat split; auto. discriminate.
Qed.

Lemma signed_digits_match sg ds rest :
  (sg = [] \/ exists c, sg = [c] /\ Pattern.is_sign c = true) ->
  ds <> [] -> forallb Digits.is_digit ds = true -> no_digit_ahead rest ->
  Pattern.signed_digits (sg ++ ds ++ rest) = Some (sg ++ ds, rest).
Proof.
  intros Hs Hne Hd Hr. unfold Pattern.signed_digits.
  destruct Hs as [->|(c & -> & Hc)].
  - destruct ds as [|d ds]; [congruence|].
    pose proof Hd as Hd'. cbn [forallb] in Hd'. apply andb_prop in Hd' as [Hd1 _].
    destruct (digit_not_special d Hd1) as (E1 & E2 & _).
    cbn [app]. unfold Pattern.is_sign. rewrite E1, E2. cbn [orb].
    change (d :: ds ++ rest) with ((d :: ds) ++ rest).
    rewrite span_digits by auto. reflexivity.
  - cbn [app]. rewrite Hc. rewrite span_digits by auto.
    destruct ds; [congruence|]. reflexivity.
Qed.

Lemma atoi_signed_number g :
  signed_number g -> exists v, Digits.atoi g = Some v.
Proof.
  intros (sg & ds & -> & [->|(c & -> & Hc)] & Hne & Hd).
  - simpl. rewrite atoi_digits by auto. eauto.
  - simpl. rewrite atoi_signed by auto. eauto.
Qed.

Lemma signed_number_app g ds :
  signed_number g -> forallb Digits.is_digit ds = true ->
  signed_number (g ++ ds).
Proof.
  intros (sg & ds0 & -> & Hs & Hne & Hd) Hds.
  exists sg, (ds0 ++ ds). rewrite app_assoc. repeat split; auto.
  - intros H. apply app_eq_nil in H as [H _]. auto.
  - rewrite forallb_app, Hd, Hds. reflexivity.
Qed.

Lemma forallb_drop_while (p q : ascii -> bool) s :
  forallb p s = true -> forallb p (Str.drop_while q s) = true.
Proof.
  induction s as [|c s IH]; simpl; auto.
  intros H. destruct (q c); auto.
  apply andb_prop in H as [_ H]. auto.
Qed.

Lemma forallb_TrimRight p s c :
  forallb p s = true -> forallb p (Str.TrimRight s c) = true.
Proof.
  intros H. unfold Str.TrimRight.
  rewrite forallb_forall in *. intros x Hx. apply in_rev in Hx.
  assert (H' : forallb p (rev s) = true).
  { rewrite forallb_forall. intros y Hy. apply H. apply in_rev. exact Hy. }
  apply (forallb_drop_while p (Ascii.eqb c)) in H'.
  rewrite forallb_forall in H'. auto.
Qed.

Lemma FindStringSubmatch_cases y :
  Pattern.FindStringSubmatch y = []
  \/ exists g1 g2 g3 g4 g5,
       Pattern.FindStringSubmatch y = [y; g1; g2; g3; g4; g5]
       /\ signed_number g1
       /\ forallb Digits.is_digit g3 = true
       /\ (g5 = [] \/ signed_number g5).
Proof.
  unfold Pattern.FindStringSubmatch.
  destruct (Pattern.signed_digits y) as [[g1 r1]|] eqn:E1; [|left; reflexivity].
  destruct (signed_digits_spec _ _ _ E1) as (_ & Hg1 & _).
  destruct (Pattern.fraction r1) as [[g2 g3] r2] eqn:E2.
  destruct (Pattern.exponent_part r2) as [[g4 g5] r3] eqn:E3.
  destruct r3; [|left; reflexivity].
  right. exists g1, g2, g3, g4, g5. repeat split; auto.
  - unfold Pattern.fraction in E2.
    destruct r1 as [|c r]; [inversion E2; reflexivity|].
    destruct (Ascii.eqb c "."); [|inversion E2; reflexivity].
    destruct (Pattern.span Digits.is_digit r) as [ds r'] eqn:Es.
    destruct (span_spec _ _ _ _ Es) as (_ & Hd & _).
    destruct ds; inversion E2; subst; auto.
  - unfold Pattern.exponent_part in E3.
    destruct r2 as [|c r]; [inversion E3; auto|].
    destruct (Pattern.is_exp_marker c); [|inversion E3; auto].
    destruct (Pattern.signed_digits r) as [[ds r']|] eqn:Es; [|inversion E3; auto].
    destruct (signed_digits_spec _ _ _ Es) as (_ & Hs & _).
    inversion E3; subst. auto.
Qed.

(** The matcher computes exactly the decompositions the pattern denotes. *)

Lemma signed_digits_number g rest :
  signed_number g -> no_digit_ahead rest ->
  Pattern.signed_digits (g ++ rest) = Some (g, rest).
Proof.
  intros (sg & ds & -> & Hs & Hne & Hd) Hr.
  rewrite <- app_assoc. apply signed_digits_match; auto.
Qed.

Lemma exp_marker_not_digit c :
  Pattern.is_exp_marker c = true ->
  Digits.is_digit c = false /\ Ascii.eqb c "." = false.
Proof.
  destruct c as [[] [] [] [] [] [] [] []]; intros H;
    solve [discriminate H | split; reflexivity].
Qed.

Lemma FindStringSubmatch_complete s g1 g2 g3 g4 g5 :
  matches_pattern s g1 g2 g3 g4 g5 ->
  Pattern.FindStringSubmatch s = [s; g1; g2; g3; g4; g5].
Proof.
  intros (-> & H1 & H2 & H4).
  assert (Hn4 : no_digit_ahead g4 /\
                match g4 with c :: _ => Ascii.eqb c "." = false | [] => True end).
  { destruct H4 as [[-> _]|(c & Hc & -> & _)]; [split; exact I|].
    apply exp_marker_not_digit in Hc. exact Hc. }
  destruct Hn4 as [Hn4 Hp4].
  assert (Hn2 : no_digit_ahead (g2 ++ g4)).
  { destruct H2 as [[-> _]|(-> & _)]; [exact Hn4|reflexivity]. }
  unfold Pattern.FindStringSubmatch.
  rewrite (signed_digits_number g1 (g2 ++ g4) H1 Hn2).
  assert (Hf : Pattern.fraction (g2 ++ g4) = (g2, g3, g4)).
  { destruct H2 as [[-> ->]|(-> & Hne & Hd)].
    - cbn [app]. unfold Pattern.fraction.
      destruct g4 as [|c r]; [reflexivity|]. rewrite Hp4. reflexivity.
    - cbn [app]. unfold Pattern.fraction.
      change (Ascii.eqb "." ".") with true. cbv iota.
      rewrite span_digits by auto.
      destruct g3; [congruence|reflexivity]. }
  rewrite Hf.
  assert (He : Pattern.exponent_part g4 = (g4, g5, [])).
  { destruct H4 as [[-> ->]|(c & Hc & -> & H5)]; [reflexivity|].
    unfold Pattern.exponent_part. rewrite Hc.
    pose proof (signed_digits_number g5 [] H5 I) as Hx.
    rewrite app_nil_r in Hx. rewrite Hx. reflexivity. }
  rewrite He. reflexivity.
Qed.

Lemma FindStringSubmatch_sound s :
  Pattern.FindStringSubmatch s = []
  \/ exists g1 g2 g3 g4 g5,
       Pattern.FindStringSubmatch s = [s; g1; g2; g3; g4; g5]
       /\ matches_pattern s g1 g2 g3 g4 g5.
Proof.
  unfold Pattern.FindStringSubmatch.
  destruct (Pattern.signed_digits s) as [[g1 r1]|] eqn:E1; [|left; reflexivity].
  destruct (signed_digits_spec _ _ _ E1) as (Hs & Hg1 & _).
  destruct (Pattern.fraction r1) as [[g2 g3] r2] eqn:E2.
  destruct (Pattern.exponent_part r2) as [[g4 g5] r3] eqn:E3.
  destruct r3; [|left; reflexivity].
  right. exists g1, g2, g3, g4, g5. split; [reflexivity|].
  assert (H2 : r1 = g2 ++ r2 /\
               ((g2 = [] /\ g3 = []) \/
                (g2 = "."%char :: g3 /\ g3 <> [] /\ forallb Digits.is_digit g3 = true))).
  { unfold Pattern.fraction in E2.
    destruct r1 as [|c r]; [inversion E2; auto|].
    destruct (Ascii.eqb c ".") eqn:Ec; [|inversion E2; auto].
    apply Ascii.eqb_eq in Ec. subst c.
    destruct (Pattern.span Digits.is_digit r) as [ds r'] eqn:Es.
    destruct (span_spec _ _ _ _ Es) as (-> & Hd & _).
    destruct ds as [|d ds]; inversion E2; subst; auto.
    split; [reflexivity|]. right. repeat split; auto. discriminate. }
  assert (H4 : r2 = g4 /\
               ((g4 = [] /\ g5 = []) \/
                (exists c, Pattern.is_exp_marker c = true /\ g4 = c :: g5
                           /\ signed_number g5))).
  { unfold Pattern.exponent_part in E3.
    destruct r2 as [|c r]; [inversion E3; auto|].
    destruct (Pattern.is_exp_marker c) eqn:Ec; [|inversion E3].
    destruct (Pattern.signed_digits r) as [[ds r']|] eqn:Es; [|inversion E3].
    destruct (signed_digits_spec _ _ _ Es) as (-> & Hn & _).
    inversion E3; subst. rewrite app_nil_r. split; [reflexivity|].
    right. exists c. auto. }
  destruct H2 as [-> H2]. destruct H4 as [-> H4].
  repeat split; auto.
Qed.

(** ** Lazy initialisation *)

Lemma deref_ensureInitialized d : deref (ensureInitialized d) = Some (sig d).
Proof. unfold deref, ensureInitialized, sig. destruct d as [[i|] e]; reflexivity. Qed.

Lemma exponent_ensureInitialized d : exponent (ensureInitialized d) = exponent d.
Proof. unfold ensureInitialized. destruct d as [[i|] e]; reflexivity. Qed.

Lemma ensureInitialized_eq d :
  ensureInitialized d = mkDecimal (Some (sig d)) (exponent d).
Proof. unfold ensureInitialized, sig. destruct d as [[i|] e]; reflexivity. Qed.

Lemma ensureInitialized_idem d :
  ensureInitialized (ensureInitialized d) = ensureInitialized d.
Proof. destruct d as [[i|] e]; reflexivity. Qed.

(** ** [SetString] *)

(** The significand text handed to [big.Int.SetString] always parses, so
    [SetString] never reaches the undefined case and never panics. *)
Lemma SetString_total x y : exists r, SetString x y = Some r.
Proof.
  unfold SetString.
  destruct (FindStringSubmatch_cases y) as [->|(g1 & g2 & g3 & g4 & g5 & -> & H1 & H3 & H5)].
  - cbn. eauto.
  - change (GoInt.len [y; g1; g2; g3; g4; g5] =? 6) with true. cbn [negb nth].
    rewrite deref_ensureInitialized.
    destruct (atoi_signed_number (g1 ++ Str.TrimRight g3 "0")) as (v & Hv).
    { apply signed_number_app; auto. apply forallb_TrimRight; auto. }
    unfold BigInt.SetString. rewrite Hv. eauto.
Qed.

Lemma SetString_no_match x y :
  Pattern.FindStringSubmatch y = [] ->
  SetString x y = Some (ensureInitialized x, false).
Proof. intros H. unfold SetString. rewrite H. reflexivity. Qed.

Lemma SetString_failure x y x' :
  SetString x y = Some (x', false) ->
  Pattern.FindStringSubmatch y = [] /\ x' = ensureInitialized x.
Proof.
  unfold SetString.
  destruct (FindStringSubmatch_cases y) as [->|(g1 & g2 & g3 & g4 & g5 & -> & H1 & H3 & H5)].
  - cbn. intros H. inversion H. auto.
  - change (GoInt.len [y; g1; g2; g3; g4; g5] =? 6) with true. cbn [negb nth].
    rewrite deref_ensureInitialized.
    destruct (BigInt.SetString _); discriminate.
Qed.

(** Text in scientific form without a fraction, as [Quo] assembles it. *)
Lemma SetString_scientific x sg ds e :
  (sg = [] \/ sg = $"-") ->
  ds <> [] -> forallb Digits.is_digit ds = true ->
  GoInt.in_int e ->
  SetString x (sg ++ ds ++ $"e" ++ Digits.itoa e) =
    Some (mkDecimal (Some (match sg with [] => Digits.value ds
                                     | _ => - Digits.value ds end)) e, true).
Proof.
  intros Hs Hne Hd He.
  assert (Hs' : sg = [] \/ exists c, sg = [c] /\ Pattern.is_sign c = true).
  { destruct Hs as [->| ->]; [left; reflexivity|right]. eexists. split; reflexivity. }
  assert (Hm : Pattern.FindStringSubmatch (sg ++ ds ++ $"e" ++ Digits.itoa e) =
          [sg ++ ds ++ $"e" ++ Digits.itoa e; sg ++ ds; []; [];
           $"e" ++ Digits.itoa e; Digits.itoa e]).
  { unfold Pattern.FindStringSubmatch.
    rewrite signed_digits_match by (auto; reflexivity).
    change (Pattern.fraction ($"e" ++ Digits.itoa e))
      with (@nil ascii, @nil ascii, $"e" ++ Digits.itoa e).
    cbn iota beta.
    assert (Hx : Pattern.exponent_part ($"e" ++ Digits.itoa e) =
                 ($"e" ++ Digits.itoa e, Digits.itoa e, [])).
    { change ($"e" ++ Digits.itoa e) with ("e"%char :: Digits.itoa e).
      unfold Pattern.exponent_part.
      change (Pattern.is_exp_marker "e") with true. cbn iota.
      assert (Hi : Pattern.signed_digits (Digits.itoa e) = Some (Digits.itoa e, [])).
      { unfold Digits.itoa. destruct (e <? 0) eqn:E.
        - apply Z.ltb_lt in E.
          destruct (of_Z_spec (- e)) as (H1 & H2 & H3 & _); [lia|].
          pose proof (signed_digits_match ["-"%char] (Digits.of_Z (- e)) []) as Hx.
          rewrite app_nil_r in Hx. apply Hx; auto; [|exact I].
          right. eexists. split; reflexivity.
        - apply Z.ltb_ge in E.
          destruct (of_Z_spec e) as (H1 & H2 & H3 & _); [lia|].
          pose proof (signed_digits_match [] (Digits.of_Z e) []) as Hx.
          rewrite app_nil_r in Hx. apply Hx; auto. exact I. }
      rewrite Hi. reflexivity. }
    rewrite Hx. reflexivity. }
  unfold SetString. rewrite Hm.
  change (GoInt.len [sg ++ ds ++ $"e" ++ Digits.itoa e; sg ++ ds; []; [];
           $"e" ++ Digits.itoa e; Digits.itoa e] =? 6) with true.
  cbn [negb nth]. change (Str.TrimRight [] "0") with (@nil ascii).
  rewrite app_nil_r, deref_ensureInitialized.
  assert (Hl : (GoInt.len (Digits.itoa e) >? 0) = true).
  { apply Z.gtb_lt. unfold Digits.itoa. destruct (e <? 0) eqn:E.
    - unfold GoInt.len. simpl. lia.
    - apply Z.ltb_ge in E. destruct (of_Z_spec e) as (_ & _ & H3 & _); [lia|].
      destruct (Digits.of_Z e); [congruence|]. unfold GoInt.len. simpl. lia. }
  rewrite Hl, ParseInt_itoa by auto.
  change (GoInt.mul (GoInt.len (@nil ascii)) (-1)) with 0.
  unfold GoInt.add. rewrite Z.add_0_l, wrap_id by auto.
  unfold BigInt.SetString.
  destruct Hs as [->| ->].
  - cbn [app]. rewrite atoi_digits by auto. reflexivity.
  - change ($"-" ++ ds) with ("-"%char :: ds).
    rewrite atoi_signed by (auto; reflexivity). reflexivity.
Qed.

(** ** The long-division loop *)

Lemma value_cons c s :
  Digits.value (c :: s) = Digits.digit_val c * 10 ^ GoInt.len s + Digits.value s.
Proof.
  change (c :: s) with ([c] ++ s). rewrite value_app.
  unfold Digits.value at 1. simpl. reflexivity.
Qed.

Lemma QuoRem_nonneg a b :
  0 <= a -> 0 < b -> BigInt.QuoRem a b = Some (a / b, a mod b).
Proof.
  intros Ha Hb. unfold BigInt.QuoRem.
  destruct (b =? 0) eqn:E; [apply Z.eqb_eq in E; lia|].
  rewrite Z.quot_div_nonneg, Z.rem_mod_nonneg by lia. reflexivity.
Qed.

(** The loop always ends within [quo_fuel] iterations, wrap-around of the
    exponent included. *)
Lemma quo_loop_terminates (MaxDecimalDigits yi : Z) :
  yi <> 0 ->
  forall fuel r buf exp,
    GoInt.in_int exp ->
    (if exp =? GoInt.min_int
     then 2 ^ 63 + GoInt.of_uint MaxDecimalDigits + 1
     else Z.max 0 (exp + GoInt.of_uint MaxDecimalDigits)) <= Z.of_nat fuel ->
    exists st, quo_loop MaxDecimalDigits fuel yi (r, buf, exp) = Some st.
Proof.
  intros Hyi.
  pose proof (wrap_in_int MaxDecimalDigits) as HM.
  fold (GoInt.of_uint MaxDecimalDigits) in HM.
  set (M := GoInt.of_uint MaxDecimalDigits) in *.
  induction fuel as [|f IH]; intros r buf exp He Hf.
  - cbn [quo_loop]. destruct (quo_cond MaxDecimalDigits (r, buf, exp)) eqn:Ec; [|eauto].
    exfalso. unfold quo_cond in Ec. apply andb_prop in Ec as [_ Ec].
    fold M in Ec. apply Z.ltb_lt in Ec.
    unfold GoInt.in_int, GoInt.min_int, GoInt.max_int in *.
    destruct (exp =? - 2 ^ 63) eqn:E.
    + simpl Z.of_nat in Hf. lia.
    + apply Z.eqb_neq in E. rewrite neg_exact in Ec
        by (unfold GoInt.in_int, GoInt.min_int, GoInt.max_int; lia).
      simpl Z.of_nat in Hf. lia.
  - cbn [quo_loop]. destruct (quo_cond MaxDecimalDigits (r, buf, exp)) eqn:Ec; [|eauto].
    unfold quo_cond in Ec. apply andb_prop in Ec as [_ Ec].
    fold M in Ec. apply Z.ltb_lt in Ec.
    unfold quo_body, BigInt.QuoRem.
    destruct (yi =? 0) eqn:E0; [apply Z.eqb_eq in E0; contradiction|].
    apply IH; [apply wrap_in_int|].
    rewrite Nat2Z.inj_succ in Hf.
    unfold GoInt.in_int, GoInt.min_int, GoInt.max_int in *.
    destruct (exp =? - 2 ^ 63) eqn:E.
    + apply Z.eqb_eq in E. subst exp.
      change (GoInt.sub (- 2 ^ 63) 1) with (2 ^ 63 - 1).
      change (2 ^ 63 - 1 =? - 2 ^ 63) with false. cbv iota. lia.
    + apply Z.eqb_neq in E. rewrite neg_exact in Ec
        by (unfold GoInt.in_int, GoInt.min_int, GoInt.max_int; lia).
      rewrite sub_exact by (unfold GoInt.in_int, GoInt.min_int, GoInt.max_int; lia).
      destruct (exp - 1 =? - 2 ^ 63) eqn:E'; [apply Z.eqb_eq in E'; lia|]. lia.
Qed.

Lemma quo_digits_terminates (MaxDecimalDigits xi0 yi0 ex ey : Z) :
  yi0 <> 0 ->
  exists st, quo_digits MaxDecimalDigits xi0 yi0 ex ey = Some st.
Proof.
  intros Hy. unfold quo_digits, BigInt.QuoRem, BigInt.Abs.
  destruct (Z.abs yi0 =? 0) eqn:E; [apply Z.eqb_eq in E; lia|].
  apply quo_loop_terminates; [lia|apply wrap_in_int|].
  unfold quo_fuel. rewrite Z2Nat.id; [apply Z.le_refl|].
  pose proof (wrap_in_int MaxDecimalDigits) as HM.
  unfold GoInt.of_uint, GoInt.in_int, GoInt.min_int, GoInt.max_int in *.
  destruct (GoInt.sub ex ey =? _); lia.
Qed.

(** [x.Quo(y)] returns for every input. *)
Lemma Quo_total (MaxDecimalDigits : Z) (x y : Decimal) :
  exists r, Quo MaxDecimalDigits x y = Some r.
Proof.
  unfold Quo. rewrite !deref_ensureInitialized.
  destruct (BigInt.Sign (sig y) =? 0) eqn:E; [eauto|].
  apply Z.eqb_neq in E. unfold BigInt.Sign in E. rewrite Z.sgn_null_iff in E.
  unfold BigInt.QuoRem at 1.
  destruct (sig y =? 0) eqn:E0; [apply Z.eqb_eq in E0; contradiction|].
  destruct (BigInt.Sign _ =? 0); [eauto|].
  destruct (quo_digits_terminates MaxDecimalDigits (sig x) (sig y)
              (exponent (ensureInitialized x)) (exponent (ensureInitialized y)) E)
    as ([[r buf] exp] & ->).
  destruct (SetString_total (ensureInitialized x)
              (buf ++ $"e" ++ Digits.itoa exp)) as ([x' ok] & ->).
  eauto.
Qed.

(** What the loop computes when [MaxDecimalDigits] fits an [int] and the
    starting exponent is not already below [- MaxDecimalDigits]: [k] digits
    of the expansion of [r / yi], stopping at the first zero remainder or
    when the exponent reaches [- MaxDecimalDigits]. *)
Lemma quo_loop_spec (M yi : Z) :
  0 <= M <= GoInt.max_int -> 0 < yi ->
  forall fuel r buf exp,
    0 <= r < yi -> - M <= exp <= GoInt.max_int -> exp + M <= Z.of_nat fuel ->
    exists ds,
      quo_loop M fuel yi (r, buf, exp)
        = Some ((r * 10 ^ GoInt.len ds) mod yi, buf ++ ds, exp - GoInt.len ds)
      /\ forallb Digits.is_digit ds = true
      /\ Digits.value ds = (r * 10 ^ GoInt.len ds) / yi
      /\ ((r * 10 ^ GoInt.len ds) mod yi = 0 \/ exp - GoInt.len ds = - M)
      /\ GoInt.len ds <= exp + M
      /\ (forall j, 0 <= j < GoInt.len ds -> (r * 10 ^ j) mod yi <> 0).
Proof.
  intros HM Hyi.
  assert (HMw : GoInt.of_uint M = M).
  { apply wrap_id. unfold GoInt.in_int, GoInt.min_int, GoInt.max_int in *. lia. }
  assert (Hstop : forall r buf exp,
             0 <= r < yi -> - M <= exp <= GoInt.max_int ->
             quo_cond M (r, buf, exp) = false ->
             exists ds,
               Some (r, buf, exp)
               = Some ((r * 10 ^ GoInt.len ds) mod yi, buf ++ ds, exp - GoInt.len ds)
               /\ forallb Digits.is_digit ds = true
               /\ Digits.value ds = (r * 10 ^ GoInt.len ds) / yi
               /\ ((r * 10 ^ GoInt.len ds) mod yi = 0 \/ exp - GoInt.len ds = - M)
               /\ GoInt.len ds <= exp + M
               /\ (forall j, 0 <= j < GoInt.len ds -> (r * 10 ^ j) mod yi <> 0)).
  { intros r buf exp Hr He Hc. exists [].
    change (GoInt.len (@nil ascii)) with 0.
    rewrite Z.pow_0_r, Z.mul_1_r, Z.mod_small, Z.div_small, app_nil_r, Z.sub_0_r by lia.
    repeat split; try lia.
    unfold quo_cond in Hc. rewrite HMw in Hc.
    apply andb_false_iff in Hc as [Hc|Hc].
    - apply negb_false_iff, Z.eqb_eq in Hc. unfold BigInt.Sign in Hc.
      rewrite Z.sgn_null_iff in Hc. auto.
    - apply Z.ltb_ge in Hc. rewrite neg_exact in Hc
        by (unfold GoInt.in_int, GoInt.min_int, GoInt.max_int in *; lia).
      right. lia. }
  induction fuel as [|f IH]; intros r buf exp Hr He Hf.
  - cbn [quo_loop]. destruct (quo_cond M (r, buf, exp)) eqn:Ec; [|apply Hstop; auto].
    exfalso. unfold quo_cond in Ec. rewrite HMw in Ec.
    apply andb_prop in Ec as [_ Ec]. apply Z.ltb_lt in Ec.
    rewrite neg_exact in Ec
      by (unfold GoInt.in_int, GoInt.min_int, GoInt.max_int in *; lia).
    simpl Z.of_nat in Hf. lia.
  - cbn [quo_loop]. destruct (quo_cond M (r, buf, exp)) eqn:Ec; [|apply Hstop; auto].
    unfold quo_cond in Ec. rewrite HMw in Ec.
    apply andb_prop in Ec as [Ec1 Ec2]. apply Z.ltb_lt in Ec2.
    apply negb_true_iff, Z.eqb_neq in Ec1. unfold BigInt.Sign in Ec1.
    rewrite Z.sgn_null_iff in Ec1.
    rewrite neg_exact in Ec2
      by (unfold GoInt.in_int, GoInt.min_int, GoInt.max_int in *; lia).
    unfold quo_body. rewrite QuoRem_nonneg by lia.
    rewrite sub_exact
      by (unfold GoInt.in_int, GoInt.min_int, GoInt.max_int in *; lia).
    set (z := r * 10 / yi).
    assert (Hz : 0 <= z <= 9).
    { unfold z. split; [apply Z.div_pos; lia|].
      assert (r * 10 / yi < 10); [|lia].
      apply Z.div_lt_upper_bound; lia. }
    assert (Hs : BigInt.String z = [Digits.digit_char z]).
    { unfold BigInt.String, Digits.itoa.
      destruct (z <? 0) eqn:E; [apply Z.ltb_lt in E; lia|].
      apply of_Z_spec; lia. }
    rewrite Hs.
    destruct (IH (r * 10 mod yi) (buf ++ [Digits.digit_char z]) (exp - 1))
      as (ds & E1 & E2 & E3 & E4 & E5 & E6).
    { apply Z.mod_pos_bound; lia. }
    { lia. }
    { rewrite Nat2Z.inj_succ in Hf. lia. }
    exists (Digits.digit_char z :: ds).
    assert (Hl : GoInt.len (Digits.digit_char z :: ds) = 1 + GoInt.len ds).
    { unfold GoInt.len. cbn [List.length]. lia. }
    pose proof (len_nonneg ds) as Hk.
    assert (Hp : r * 10 ^ (1 + GoInt.len ds) = r * 10 * 10 ^ GoInt.len ds).
    { rewrite Z.pow_add_r by lia. rewrite Z.pow_1_r. ring. }
    assert (Hmod : (r * 10 mod yi * 10 ^ GoInt.len ds) mod yi
                   = (r * 10 * 10 ^ GoInt.len ds) mod yi).
    { apply Z.mul_mod_idemp_l. lia. }
    rewrite Hl, Hp, <- Hmod.
    replace (exp - (1 + GoInt.len ds)) with (exp - 1 - GoInt.len ds) by lia.
    split; [rewrite E1, <- app_assoc; reflexivity|].
    split; [cbn [forallb]; rewrite is_digit_char, E2 by lia; reflexivity|].
    split.
    { rewrite value_cons, digit_val_char, E3 by lia.
      pose proof (Z.div_mod (r * 10) yi ltac:(lia)) as Hdm. fold z in Hdm.
      replace (r * 10 * 10 ^ GoInt.len ds)
        with ((yi * z + (r * 10) mod yi) * 10 ^ GoInt.len ds)
        by (f_equal; symmetry; exact Hdm).
      replace ((yi * z + (r * 10) mod yi) * 10 ^ GoInt.len ds)
        with (z * 10 ^ GoInt.len ds * yi + (r * 10) mod yi * 10 ^ GoInt.len ds)
        by ring.
      rewrite Z.div_add_l by lia. reflexivity. }
    split; [destruct E4 as [E4|E4]; [left; exact E4|right; lia]|].
    split; [lia|].
    intros j Hj. destruct (Z.eq_dec j 0) as [->|Hj0].
    + rewrite Z.pow_0_r, Z.mul_1_r, Z.mod_small; lia.
    + replace j with (1 + (j - 1)) by lia.
      rewrite Z.pow_add_r, Z.pow_1_r by lia.
      replace (r * (10 * 10 ^ (j - 1))) with (r * 10 * 10 ^ (j - 1)) by ring.
      rewrite <- Z.mul_mod_idemp_l by lia. apply E6. lia.
Qed.

Lemma quo_digits_spec (M xi0 yi0 ex ey : Z) :
  0 <= M <= GoInt.max_int -> yi0 <> 0 ->
  GoInt.in_int (ex - ey) -> - M <= ex - ey ->
  exists ds,
    quo_digits M xi0 yi0 ex ey
      = Some ((Z.abs xi0 * 10 ^ GoInt.len ds) mod Z.abs yi0,
              quo_sign_text xi0 yi0 ++ Digits.of_Z (Z.abs xi0 / Z.abs yi0) ++ ds,
              ex - ey - GoInt.len ds)
    /\ forallb Digits.is_digit (Digits.of_Z (Z.abs xi0 / Z.abs yi0) ++ ds) = true
    /\ Digits.value (Digits.of_Z (Z.abs xi0 / Z.abs yi0) ++ ds)
       = (Z.abs xi0 * 10 ^ GoInt.len ds) / Z.abs yi0
    /\ ((Z.abs xi0 * 10 ^ GoInt.len ds) mod Z.abs yi0 = 0
        \/ ex - ey - GoInt.len ds = - M)
    /\ GoInt.len ds <= ex - ey + M
    /\ (forall j, 0 <= j < GoInt.len ds ->
                  (Z.abs xi0 * 10 ^ j) mod Z.abs yi0 <> 0).
Proof.
  intros HM Hy HE HE'.
  set (xi := Z.abs xi0). set (yi := Z.abs yi0).
  assert (Hxi : 0 <= xi) by (unfold xi; lia).
  assert (Hyi : 0 < yi) by (unfold yi; lia).
  unfold quo_digits, BigInt.Abs. fold xi yi.
  rewrite QuoRem_nonneg, sub_exact by auto.
  assert (Hz0 : 0 <= xi / yi) by (apply Z.div_pos; lia).
  assert (Hs : BigInt.String (xi / yi) = Digits.of_Z (xi / yi)).
  { unfold BigInt.String, Digits.itoa.
    destruct (xi / yi <? 0) eqn:E; [apply Z.ltb_lt in E; lia|reflexivity]. }
  rewrite Hs.
  destruct (of_Z_spec (xi / yi) Hz0) as (D1 & D2 & D3 & _).
  destruct (quo_loop_spec M yi HM Hyi (quo_fuel M (ex - ey)) (xi mod yi)
              (quo_sign_text xi0 yi0 ++ Digits.of_Z (xi / yi)) (ex - ey))
    as (ds & E1 & E2 & E3 & E4 & E5 & E6).
  { apply Z.mod_pos_bound; lia. }
  { unfold GoInt.in_int in HE. lia. }
  { unfold quo_fuel, GoInt.of_uint.
    rewrite (wrap_id M)
      by (unfold GoInt.in_int, GoInt.min_int, GoInt.max_int in *; lia).
    destruct (ex - ey =? GoInt.min_int) eqn:E.
    - apply Z.eqb_eq in E. unfold GoInt.min_int, GoInt.max_int in *. lia.
    - rewrite Z2Nat.id; lia. }
  pose proof (len_nonneg ds) as Hk.
  assert (Hmod : forall j, 0 <= j ->
            (xi mod yi * 10 ^ j) mod yi = (xi * 10 ^ j) mod yi).
  { intros j _. apply Z.mul_mod_idemp_l. lia. }
  exists ds. rewrite <- Hmod by lia.
  split; [unfold quo_sign_text in *; rewrite E1, <- app_assoc; reflexivity|].
  split; [rewrite forallb_app, D1, E2; reflexivity|].
  split.
  { rewrite value_app, D2, E3.
    pose proof (Z.div_mod xi yi ltac:(lia)) as Hdm.
    replace (xi * 10 ^ GoInt.len ds)
      with ((yi * (xi / yi) + xi mod yi) * 10 ^ GoInt.len ds)
      by (f_equal; symmetry; exact Hdm).
    replace ((yi * (xi / yi) + xi mod yi) * 10 ^ GoInt.len ds)
      with (xi / yi * 10 ^ GoInt.len ds * yi + xi mod yi * 10 ^ GoInt.len ds)
      by ring.
    rewrite Z.div_add_l by lia. reflexivity. }
  split; [exact E4|]. split; [exact E5|].
  intros j Hj. rewrite <- Hmod by lia. apply E6. exact Hj.
Qed.

(** The inexact branch of [Quo]: the quotient truncated to [k] more
    digits. *)
Lemma Quo_inexact_spec (M : Z) (x y : Decimal) :
  0 <= M <= GoInt.max_int ->
  sig y <> 0 -> Z.rem (sig x) (sig y) <> 0 ->
  GoInt.in_int (exponent x - exponent y) ->
  - M <= exponent x - exponent y ->
  exists ds,
    quo_digits M (sig x) (sig y) (exponent x) (exponent y)
      = Some ((Z.abs (sig x) * 10 ^ GoInt.len ds) mod Z.abs (sig y),
              quo_sign_text (sig x) (sig y)
                ++ Digits.of_Z (Z.abs (sig x) / Z.abs (sig y)) ++ ds,
              exponent x - exponent y - GoInt.len ds)
    /\ 0 <= GoInt.len ds <= exponent x - exponent y + M
    /\ Quo M x y
       = Some (mkDecimal
                 (Some (quo_sign (sig x) (sig y)
                        * ((Z.abs (sig x) * 10 ^ GoInt.len ds) / Z.abs (sig y))))
                 (exponent x - exponent y - GoInt.len ds),
               ensureInitialized y)
    /\ ((Z.abs (sig x) * 10 ^ GoInt.len ds) mod Z.abs (sig y) = 0
        \/ exponent x - exponent y - GoInt.len ds = - M)
    /\ (forall j, 0 <= j < GoInt.len ds ->
                  (Z.abs (sig x) * 10 ^ j) mod Z.abs (sig y) <> 0).
Proof.
  intros HM Hy Hrem HE HE'.
  destruct (quo_digits_spec M (sig x) (sig y) (exponent x) (exponent y)
              HM Hy HE HE') as (ds & E1 & E2 & E3 & E4 & E5 & E6).
  pose proof (len_nonneg ds) as Hk.
  exists ds. split; [exact E1|]. split; [lia|].
  split; [|split; [exact E4|exact E6]].
  unfold Quo. rewrite !deref_ensureInitialized, !exponent_ensureInitialized.
  destruct (BigInt.Sign (sig y) =? 0) eqn:Es.
  { apply Z.eqb_eq in Es. unfold BigInt.Sign in Es.
    rewrite Z.sgn_null_iff in Es. contradiction. }
  unfold BigInt.QuoRem at 1.
  destruct (sig y =? 0) eqn:E0; [apply Z.eqb_eq in E0; contradiction|].
  destruct (BigInt.Sign (Z.rem (sig x) (sig y)) =? 0) eqn:Er.
  { apply Z.eqb_eq in Er. unfold BigInt.Sign in Er.
    rewrite Z.sgn_null_iff in Er. contradiction. }
  rewrite E1.
  assert (Hne : Digits.of_Z (Z.abs (sig x) / Z.abs (sig y)) ++ ds <> []).
  { destruct (of_Z_spec (Z.abs (sig x) / Z.abs (sig y))) as (_ & _ & D3 & _).
    - apply Z.div_pos; lia.
    - intros H. apply app_eq_nil in H as [H _]. contradiction. }
  rewrite <- app_assoc.
  rewrite SetString_scientific; auto.
  - rewrite E3. unfold quo_sign_text, quo_sign.
    destruct (BigInt.Sign (sig x) * BigInt.Sign (sig y) =? -1);
      cbn [app Str.lit list_ascii_of_string];
      match goal with
      | |- Some (mkDecimal (Some ?a) _, _) = Some (mkDecimal (Some ?b) _, _) =>
          replace b with a by lia; reflexivity
      end.
  - unfold quo_sign_text. destruct (_ =? -1); auto.
  - unfold GoInt.in_int, GoInt.min_int, GoInt.max_int in *. lia.
Qed.

Lemma Quo_exact_spec (M : Z) (x y : Decimal) :
  sig y <> 0 -> Z.rem (sig x) (sig y) = 0 ->
  Quo M x y
  = Some (mkDecimal (Some (Z.quot (sig x) (sig y)))
                    (GoInt.sub (exponent x) (exponent y)),
          ensureInitialized y).
Proof.
  intros Hy Hr. unfold Quo.
  rewrite !deref_ensureInitialized, !exponent_ensureInitialized.
  destruct (BigInt.Sign (sig y) =? 0) eqn:Es.
  { apply Z.eqb_eq in Es. unfold BigInt.Sign in Es.
    rewrite Z.sgn_null_iff in Es. contradiction. }
  unfold BigInt.QuoRem.
  destruct (sig y =? 0) eqn:E0; [apply Z.eqb_eq in E0; contradiction|].
  rewrite Hr. reflexivity.
Qed.

(** ** Numeric value *)

Lemma scaled_shift d c c' :
  c' <= c <= exponent d -> scaled d c' = scaled d c * 10 ^ (c - c').
Proof.
  intros H. unfold scaled. rewrite <- Z.mul_assoc, <- Z.pow_add_r by lia.
  do 2 f_equal. lia.
Qed.

Lemma num_compare_at x y c :
  c <= exponent x -> c <= exponent y ->
  num_compare x y = (scaled x c ?= scaled y c).
Proof.
  intros Hx Hy. unfold num_compare.
  set (m := Z.min (exponent x) (exponent y)).
  rewrite (scaled_shift x m c), (scaled_shift y m c) by lia.
  assert (Hp : 0 < 10 ^ (m - c)) by (apply Z.pow_pos_nonneg; lia).
  destruct (Z.compare_spec (scaled x m) (scaled y m)) as [H|H|H]; symmetry.
  - apply Z.compare_eq_iff. rewrite H. reflexivity.
  - apply Z.compare_lt_iff. nia.
  - apply Z.compare_gt_iff. nia.
Qed.

Lemma num_eq_at x y c :
  c <= exponent x -> c <= exponent y ->
  (num_eq x y <-> scaled x c = scaled y c).
Proof.
  intros Hx Hy. unfold num_eq. rewrite (num_compare_at x y c) by auto.
  apply Z.compare_eq_iff.
Qed.

(** ** [align] and [Cmp] when the exponents do not have opposite signs *)

Lemma align_same_sign (x y : Decimal) :
  0 <= exponent x * exponent y ->
  align (ensureInitialized x) (ensureInitialized y)
  = Some (mkDecimal (Some (scaled x (Z.min (exponent x) (exponent y))))
                    (Z.min (exponent x) (exponent y)),
          mkDecimal (Some (scaled y (Z.min (exponent x) (exponent y))))
                    (Z.min (exponent x) (exponent y))).
Proof.
  intros Hs. unfold align, scaled.
  rewrite !deref_ensureInitialized, !exponent_ensureInitialized.
  rewrite !ensureInitialized_eq. unfold BigInt.Abs, BigInt.Exp.
  assert (Hd : Z.abs (Z.abs (exponent x) - Z.abs (exponent y))
               = Z.abs (exponent x - exponent y)) by nia.
  rewrite Hd.
  destruct (exponent x =? exponent y) eqn:E; cbn [negb].
  - apply Z.eqb_eq in E. rewrite E, Z.min_id, Z.sub_diag, !Z.mul_1_r. reflexivity.
  - apply Z.eqb_neq in E.
    destruct (Z.abs (exponent x - exponent y) <=? 0) eqn:E0;
      [apply Z.leb_le in E0; lia|].
    destruct (exponent x >? exponent y) eqn:Eg.
    + apply Z.gtb_lt in Eg. rewrite Z.min_r, Z.sub_diag, Z.mul_1_r by lia.
      rewrite Z.abs_eq by lia. reflexivity.
    + rewrite Z.gtb_ltb in Eg. apply Z.ltb_ge in Eg.
      rewrite Z.min_l, Z.sub_diag, Z.mul_1_r by lia.
      replace (Z.abs (exponent x - exponent y)) with (exponent y - exponent x) by lia.
      reflexivity.
Qed.

Lemma Cmp_same_sign (x y : Decimal) :
  0 <= exponent x * exponent y ->
  exists x' y', Cmp x y = Some (cmp_of (num_compare x y), (x', y')).
Proof.
  intros Hs. unfold Cmp. rewrite (align_same_sign x y Hs).
  cbn [deref integer]. do 2 eexists. reflexivity.
Qed.

Lemma quo_sign_abs (ai bi : Z) :
  ai <> 0 -> bi <> 0 -> quo_sign ai bi * bi = Z.sgn ai * Z.abs bi.
Proof.
  intros Ha Hb. unfold quo_sign, BigInt.Sign.
  destruct ai, bi; try congruence; cbn; lia.
Qed.

(** ** Multiplication *)

Lemma Mul_unfold (x y : Decimal) :
  Mul x y
  = Some (if sig y =? 0 then mkDecimal (Some 0) 0
          else mkDecimal (Some (sig x * sig y))
                         (GoInt.add (exponent x) (exponent y)),
          ensureInitialized y).
Proof.
  unfold Mul. rewrite !deref_ensureInitialized, !exponent_ensureInitialized.
  unfold BigInt.Sign.
  destruct (sig y =? 0) eqn:E.
  - apply Z.eqb_eq in E. rewrite E. reflexivity.
  - apply Z.eqb_neq in E.
    destruct (Z.sgn (sig y) =? 0) eqn:E'; [|reflexivity].
    apply Z.eqb_eq in E'. rewrite Z.sgn_null_iff in E'. contradiction.
Qed.

(** ** Inputs used in the examples *)

Lemma Parse_examples :
  Parse $"1e2" = Some (inl (mkDecimal (Some 1) 2))
  /\ Parse $"0.01" = Some (inl (mkDecimal (Some 1) (-2)))
  /\ Parse $"0" = Some (inl (mkDecimal (Some 0) 0))
  /\ Parse $"-0" = Some (inl (mkDecimal (Some 0) 0))
  /\ Parse $"0.5" = Some (inl (mkDecimal (Some 5) (-1)))
  /\ Parse $"1.5" = Some (inl (mkDecimal (Some 15) (-1)))
  /\ Parse $"1.50" = Some (inl (mkDecimal (Some 15) (-1)))
  /\ Parse $"2.5" = Some (inl (mkDecimal (Some 25) (-1)))
  /\ Parse $"3.5" = Some (inl (mkDecimal (Some 35) (-1)))
  /\ Parse $"250e-2" = Some (inl (mkDecimal (Some 250) (-2)))
  /\ Parse $"10e-300" = Some (inl (mkDecimal (Some 10) (-300)))
  /\ Parse $"1e-300" = Some (inl (mkDecimal (Some 1) (-300)))
  /\ Parse $"1e5" = Some (inl (mkDecimal (Some 1) 5))
  /\ Parse $"2" = Some (inl (mkDecimal (Some 2) 0))
  /\ Parse $"3" = Some (inl (mkDecimal (Some 3) 0))
  /\ Parse $"5e-301" = Some (inl (mkDecimal (Some 5) (-301))).
Proof. repeat split; vm_compute; reflexivity. Qed.

(** * The claims *)

(** ** Alignment and comparison *)

(** C1.  With exponents of opposite sign [align] does not rescale by
    [10^|x.exponent - y.exponent|]: on [x = 1e2] and [y = 0.01] (the values
    of [Parse("1e2")] and [Parse("0.01")]) the difference it computes is
    [| |2| - |-2| | = 0], so [x] keeps the significand 1 (not [1 * 10^4])
    while its exponent becomes -2, and [x] no longer denotes the value it
    had. *)
Theorem align_opposite_signs_changes_value :
  let x := mkDecimal (Some 1) 2 in
  let y := mkDecimal (Some 1) (-2) in
  exponent x <> exponent y
  /\ align x y = Some (mkDecimal (Some 1) (-2), y)
  /\ sig x * 10 ^ Z.abs (exponent x - exponent y) = 10000
  /\ ~ num_eq (mkDecimal (Some 1) (-2)) x.
Proof.
  cbv zeta. split; [discriminate|]. split; [reflexivity|].
  split; [reflexivity|]. unfold num_eq. vm_compute. discriminate.
Qed.

(** C2.  [Cmp] inherits the defect of [align]: [1e2] compared with [0.01]
    gives 0 although 100 is greater than 0.01.  The two examples of the
    claim, [-0] against [0] and [1.50] against [1.5] (both parsed to
    15 * 10^-1, and also when 1.50 is held as 150 * 10^-2), do compare
    equal. *)
Theorem Cmp_opposite_signs_wrong :
  let x := mkDecimal (Some 1) 2 in
  let y := mkDecimal (Some 1) (-2) in
  (exists x' y', Cmp x y = Some (0, (x', y')))
  /\ num_compare x y = Gt
  /\ cmp_of (num_compare x y) = 1
  /\ (exists x' y', Cmp (mkDecimal (Some (-0)) 0) (mkDecimal (Some 0) 0)
                    = Some (0, (x', y')))
  /\ (exists x' y', Cmp (mkDecimal (Some 15) (-1)) (mkDecimal (Some 15) (-1))
                    = Some (0, (x', y')))
  /\ (exists x' y', Cmp (mkDecimal (Some 150) (-2)) (mkDecimal (Some 15) (-1))
                    = Some (0, (x', y'))).
Proof.
  cbv zeta. repeat split; try reflexivity; do 2 eexists; reflexivity.
Qed.

(** ** Multiplication *)

(** C3, as stated, fails: a zero receiver multiplied by a non-zero argument
    keeps the sum of the exponents; [0 * 0.5] is zero with exponent -1. *)
Lemma Mul_zero_receiver_keeps_exponent :
  let x := mkDecimal (Some 0) 0 in
  let y := mkDecimal (Some 5) (-1) in
  sig x = 0
  /\ Mul x y = Some (mkDecimal (Some 0) (-1), y)
  /\ mkDecimal (Some 0) (-1) <> mkDecimal (Some 0) 0.
Proof. cbv zeta. repeat split; try reflexivity. discriminate. Qed.

(** C3, amended.  [x.Mul(y)] never panics; if the significand of [y] is zero
    then [x] becomes exact zero with exponent 0; otherwise, also when the
    significand of [x] is zero, the significand of [x] becomes the product
    of the two significands and its exponent the sum of the two exponents
    in [int] arithmetic, which is their sum whenever that fits an [int].
    [y] is only initialised. *)
Theorem Mul_spec (x y : Decimal) :
  exists x',
    Mul x y = Some (x', ensureInitialized y)
    /\ (sig y = 0 -> x' = mkDecimal (Some 0) 0)
    /\ (sig y <> 0 ->
        integer x' = Some (sig x * sig y)
        /\ exponent x' = GoInt.add (exponent x) (exponent y)
        /\ (GoInt.in_int (exponent x + exponent y) ->
            exponent x' = exponent x + exponent y)).
Proof.
  rewrite Mul_unfold. eexists. split; [reflexivity|].
  destruct (sig y =? 0) eqn:E.
  - apply Z.eqb_eq in E. split; [reflexivity|]. intros H. contradiction.
  - apply Z.eqb_neq in E. split; [intros H; contradiction|]. intros _.
    cbn [integer exponent]. repeat split. apply add_exact.
Qed.

(** [Mul_spec] at [1.5 * 2e3]. *)
Lemma Mul_spec_witness :
  sig (mkDecimal (Some 2) 3) <> 0
  /\ GoInt.in_int (-1 + 3)
  /\ exists x',
       Mul (mkDecimal (Some 15) (-1)) (mkDecimal (Some 2) 3)
         = Some (x', mkDecimal (Some 2) 3)
       /\ integer x' = Some 30 /\ exponent x' = 2.
Proof.
  assert (H0 : sig (mkDecimal (Some 2) 3) <> 0) by discriminate.
  assert (H1 : GoInt.in_int (-1 + 3)) by (split; discriminate).
  split; [exact H0|]. split; [exact H1|].
  destruct (Mul_spec (mkDecimal (Some 15) (-1)) (mkDecimal (Some 2) 3))
    as (x' & E & _ & H).
  exists x'. split; [exact E|].
  destruct (H H0) as (H2 & _ & H3).
  split; [exact H2|]. exact (H3 H1).
Defined.

(** ** Rounding to nearest, ties to even *)

(** C4.  A 5 followed only by zeros is still a tie, yet the code rounds up
    as soon as any digit follows the 5: [Parse("250e-2")], the value 2.50
    held as 250 * 10^-2, rounds at precision 0 to 3 and not to the even
    neighbour 2.  The two examples of the claim hold: 2.5 gives 2 and 3.5
    gives 4. *)
Theorem RoundToNearestEven_tie_with_trailing_zero :
  Parse $"250e-2" = Some (inl (mkDecimal (Some 250) (-2)))
  /\ RoundToNearestEven (mkDecimal (Some 250) (-2)) 0
     = Some (mkDecimal (Some 3) 0)
  /\ RoundToNearestEven (mkDecimal (Some 25) (-1)) 0
     = Some (mkDecimal (Some 2) 0)
  /\ RoundToNearestEven (mkDecimal (Some 35) (-1)) 0
     = Some (mkDecimal (Some 4) 0).
Proof. repeat split; vm_compute; reflexivity. Qed.

(** ** Absence of run-time faults *)

(** C5.  [RoundToNearestEven] panics on [Parse("0.5")] at precision 0: the
    digit string is padded only when it is strictly shorter than the number
    of fractional digits, so here the integer part is empty and the look-up
    of the neighbour digit slices it at -1.  On 0.6 the empty digit string
    makes [big.Int.SetString] return nil, and the increment dereferences it.
    [Parse] itself rejects ["12.3.4"] and ["abc"] with an error and no
    panic. *)
Theorem RoundToNearestEven_panics_below_one :
  Parse $"0.5" = Some (inl (mkDecimal (Some 5) (-1)))
  /\ RoundToNearestEven (mkDecimal (Some 5) (-1)) 0 = None
  /\ RoundToNearestEven (mkDecimal (Some 6) (-1)) 0 = None
  /\ Parse $"12.3.4" = Some (inr (InvalidDecimalString $"12.3.4"))
  /\ Parse $"abc" = Some (inr (InvalidDecimalString $"abc")).
Proof. repeat split; vm_compute; reflexivity. Qed.

(** ** Division by zero *)

(** C6.  When the significand of [y] is zero (a nil significand included),
    [x.Quo(y)] and [x.Div(y)] do not panic and leave [x] as exact zero with
    exponent 0, whatever [x] and [MaxDecimalDigits] are. *)
Theorem Quo_by_zero (MaxDecimalDigits : Z) (x y : Decimal) :
  sig y = 0 ->
  Quo MaxDecimalDigits x y
    = Some (mkDecimal (Some 0) 0, ensureInitialized y)
  /\ Div MaxDecimalDigits x y
    = Some (mkDecimal (Some 0) 0, ensureInitialized y).
Proof.
  intros Hy. unfold Div, Quo.
  rewrite !deref_ensureInitialized, Hy. split; reflexivity.
Qed.

(** [Quo_by_zero] at [0.07 / 0e3], the divisor's significand being nil. *)
Lemma Quo_by_zero_witness :
  sig (mkDecimal None 3) = 0
  /\ Quo 200 (mkDecimal (Some 7) (-2)) (mkDecimal None 3)
      = Some (mkDecimal (Some 0) 0, mkDecimal (Some 0) 3)
  /\ Div 200 (mkDecimal (Some 7) (-2)) (mkDecimal None 3)
      = Some (mkDecimal (Some 0) 0, mkDecimal (Some 0) 3).
Proof.
  split; [reflexivity|].
  apply (Quo_by_zero 200 (mkDecimal (Some 7) (-2)) (mkDecimal None 3)).
  reflexivity.
Defined.

(** ** The digit ceiling *)

(** C7, as stated, fails.  The loop is bounded by the exponent it has
    reached, not by the number of digits it has appended: with the default
    ceiling, [10e-300 / 3] appends nothing and returns [3e-300], which
    prints with 300 digits after the decimal point, and [1e5 / 3] appends
    205 digits (the buffer holds the leading ["0"] and 205 more) while the
    remainder is still nonzero. *)
Lemma Quo_digit_ceiling_is_on_the_exponent :
  let x := mkDecimal (Some 10) (-300) in
  let y := mkDecimal (Some 3) 0 in
  (sig y <> 0 /\ Z.rem (sig x) (sig y) <> 0
   /\ Quo MaxDecimalDigits_default x y = Some (mkDecimal (Some 3) (-300), y)
   /\ ~ frac_digits (mkDecimal (Some 3) (-300)) <= MaxDecimalDigits_default
   /\ String (mkDecimal (Some 3) (-300))
      = Some ($"0." ++ List.repeat "0"%char 299 ++ $"3",
              mkDecimal (Some 3) (-300)))
  /\ (exists r buf exp,
        quo_digits MaxDecimalDigits_default 1 3 5 0 = Some (r, buf, exp)
        /\ r <> 0
        /\ GoInt.len buf = 1 + 205
        /\ ~ 205 <= MaxDecimalDigits_default).
Proof.
  cbv zeta. split.
  - split; [cbn; lia|]. split; [cbn; lia|].
    split; [vm_compute; reflexivity|].
    split; [vm_compute; intros H; apply H; reflexivity|].
    vm_compute; reflexivity.
  - do 3 eexists. split; [vm_compute; reflexivity|].
    split; [discriminate|]. split; [reflexivity|].
    vm_compute. intros H; apply H; reflexivity.
Qed.

(** C7, amended.  For a nonzero divisor and an inexact significand division
    the loop terminates and [Quo] returns, whatever the ceiling is.  When
    [MaxDecimalDigits] fits an [int], the exponent difference
    [x.exponent - y.exponent] does not overflow and is at least
    [- MaxDecimalDigits], the loop appends digits until the remainder is
    zero or the fractional digit count of the running result,
    [(y.exponent - x.exponent)] plus the digits appended, reaches
    [MaxDecimalDigits]; at most
    [MaxDecimalDigits + (x.exponent - y.exponent)] digits are appended, and
    the result has at most [MaxDecimalDigits] digits after the decimal
    point. *)
Theorem Quo_long_division_bound (MaxDecimalDigits : Z) (x y : Decimal) :
  sig y <> 0 -> Z.rem (sig x) (sig y) <> 0 ->
  (exists st,
     quo_digits MaxDecimalDigits (sig x) (sig y) (exponent x) (exponent y)
     = Some st)
  /\ (exists r, Quo MaxDecimalDigits x y = Some r)
  /\ (0 <= MaxDecimalDigits <= GoInt.max_int ->
      GoInt.in_int (exponent x - exponent y) ->
      - MaxDecimalDigits <= exponent x - exponent y ->
      exists ds r x',
        quo_digits MaxDecimalDigits (sig x) (sig y) (exponent x) (exponent y)
        = Some (r,
                quo_sign_text (sig x) (sig y)
                  ++ BigInt.String (Z.abs (sig x) / Z.abs (sig y)) ++ ds,
                exponent x - exponent y - GoInt.len ds)
        /\ forallb Digits.is_digit ds = true
        /\ (r = 0 \/ (exponent y - exponent x) + GoInt.len ds = MaxDecimalDigits)
        /\ GoInt.len ds <= MaxDecimalDigits + (exponent x - exponent y)
        /\ Quo MaxDecimalDigits x y = Some (x', ensureInitialized y)
        /\ exponent x' = exponent x - exponent y - GoInt.len ds
        /\ frac_digits x' <= MaxDecimalDigits).
Proof.
  intros Hy Hrem.
  split; [apply quo_digits_terminates; exact Hy|].
  split; [apply Quo_total|].
  intros HM HE HE'.
  destruct (Quo_inexact_spec MaxDecimalDigits x y HM Hy Hrem HE HE')
    as (ds & E1 & Hk & HQ & Hstop & _).
  destruct (quo_digits_spec MaxDecimalDigits (sig x) (sig y) (exponent x)
              (exponent y) HM Hy HE HE') as (ds' & E1' & E2' & _).
  rewrite E1 in E1'. inversion E1' as [[Hr Hb He]].
  apply app_inv_head in Hb. apply app_inv_head in Hb. subst ds'.
  rewrite forallb_app in E2'. apply andb_prop in E2' as [_ E2'].
  assert (Hs : BigInt.String (Z.abs (sig x) / Z.abs (sig y))
               = Digits.of_Z (Z.abs (sig x) / Z.abs (sig y))).
  { unfold BigInt.String, Digits.itoa.
    destruct (_ <? 0) eqn:E; [|reflexivity].
    apply Z.ltb_lt in E.
    assert (0 <= Z.abs (sig x) / Z.abs (sig y)) by (apply Z.div_pos; lia). lia. }
  do 3 eexists. rewrite Hs.
  split; [exact E1|]. split; [exact E2'|].
  split; [destruct Hstop as [H|H]; [left; exact H|right; lia]|].
  split; [lia|]. split; [exact HQ|]. split; [reflexivity|].
  unfold frac_digits. cbn [exponent]. lia.
Qed.

(** [Quo_long_division_bound] at [1 / 3] with the default ceiling. *)
Lemma Quo_long_division_bound_witness :
  sig (mkDecimal (Some 3) 0) <> 0
  /\ Z.rem (sig (mkDecimal (Some 1) 0)) (sig (mkDecimal (Some 3) 0)) <> 0
  /\ 0 <= 200 <= GoInt.max_int
  /\ GoInt.in_int (0 - 0)
  /\ - 200 <= 0 - 0
  /\ exists x',
       Quo 200 (mkDecimal (Some 1) 0) (mkDecimal (Some 3) 0)
         = Some (x', mkDecimal (Some 3) 0)
       /\ frac_digits x' <= 200.
Proof.
  assert (H0 : sig (mkDecimal (Some 3) 0) <> 0) by discriminate.
  assert (H1 : Z.rem (sig (mkDecimal (Some 1) 0)) (sig (mkDecimal (Some 3) 0)) <> 0)
    by discriminate.
  assert (H2 : 0 <= 200 <= GoInt.max_int) by (split; discriminate).
  assert (H3 : GoInt.in_int (0 - 0)) by (split; discriminate).
  assert (H4 : - 200 <= 0 - 0) by discriminate.
  repeat (split; [assumption|]).
  destruct (Quo_long_division_bound 200 (mkDecimal (Some 1) 0)
              (mkDecimal (Some 3) 0) H0 H1) as (_ & _ & H).
  destruct (H H2 H3 H4) as (ds & r & x' & _ & _ & _ & _ & H5 & _ & H7).
  exists x'. split; [exact H5|exact H7].
Defined.

(** ** Exact division *)

(** C8, as stated, fails: a quotient with more than [MaxDecimalDigits]
    fractional digits is truncated.  With the default 200,
    [1 / 2^201] is cut after 200 digits and differs from [q = 5^201 e-201]
    although [q * 2^201 = 1]; and [1e-300 / 2] gives [0e-300], not
    [5e-301].  In both cases [Cmp] says that [a] equals [q.Mul(b)] and that
    the quotient differs from [q]. *)
Lemma Quo_truncates_long_quotients :
  let a := mkDecimal (Some 1) 0 in
  let b := mkDecimal (Some (2 ^ 201)) 0 in
  let q := mkDecimal (Some (5 ^ 201)) (-201) in
  let a' := mkDecimal (Some 1) (-300) in
  let b' := mkDecimal (Some 2) 0 in
  let q' := mkDecimal (Some 5) (-301) in
  (exists p r,
     Mul q b = Some (p, b) /\ num_eq a p
     /\ (exists s t, Cmp a p = Some (0, (s, t)))
     /\ Quo MaxDecimalDigits_default a b = Some (r, b)
     /\ ~ num_eq r q
     /\ (exists s t, Cmp r q = Some (-1, (s, t))))
  /\ (exists p r,
     Mul q' b' = Some (p, b') /\ num_eq a' p
     /\ (exists s t, Cmp a' p = Some (0, (s, t)))
     /\ Quo MaxDecimalDigits_default a' b' = Some (r, b')
     /\ r = mkDecimal (Some 0) (-300)
     /\ ~ num_eq r q'
     /\ (exists s t, Cmp r q' = Some (-1, (s, t)))).
Proof.
  cbv zeta. split.
  - do 2 eexists. split; [vm_compute; reflexivity|].
    split; [vm_compute; reflexivity|].
    split; [do 2 eexists; vm_compute; reflexivity|].
    split; [vm_compute; reflexivity|].
    split; [vm_compute; discriminate|].
    do 2 eexists; vm_compute; reflexivity.
  - do 2 eexists. split; [vm_compute; reflexivity|].
    split; [vm_compute; reflexivity|].
    split; [do 2 eexists; vm_compute; reflexivity|].
    split; [vm_compute; reflexivity|].
    split; [reflexivity|].
    split; [vm_compute; discriminate|].
    do 2 eexists; vm_compute; reflexivity.
Qed.

(** C8, amended.  Let [b] be nonzero, let [a] denote the same value as
    [q.Mul(b)], and let [q] have at most [MaxDecimalDigits] fractional
    digits ([- MaxDecimalDigits <= q.exponent]); [MaxDecimalDigits] fits an
    [int] and the two exponent computations do not overflow.  Then
    [a.Quo(b)] returns a decimal that denotes the same value as [q], and
    [Cmp] of that decimal with [q] is 0 whenever their exponents do not have
    opposite signs. *)
Theorem Quo_exact_roundtrip (MaxDecimalDigits : Z) (a b q : Decimal) :
  0 <= MaxDecimalDigits <= GoInt.max_int ->
  sig b <> 0 ->
  GoInt.in_int (exponent a - exponent b) ->
  GoInt.in_int (exponent q + exponent b) ->
  - MaxDecimalDigits <= exponent q ->
  (exists p b', Mul q b = Some (p, b') /\ num_eq a p) ->
  exists r b',
    Quo MaxDecimalDigits a b = Some (r, b')
    /\ num_eq r q
    /\ (0 <= exponent r * exponent q ->
        exists r' q', Cmp r q = Some (0, (r', q'))).
Proof.
  intros HM Hb HE HP Hq (p & b' & Hmul & Heq).
  rewrite Mul_unfold in Hmul.
  destruct (sig b =? 0) eqn:Eb; [apply Z.eqb_eq in Eb; contradiction|].
  inversion Hmul; subst p b'. clear Hmul Eb.
  assert (Hpi : integer (mkDecimal (Some (sig q * sig b))
                           (GoInt.add (exponent q) (exponent b)))
                = Some (sig q * sig b)) by reflexivity.
  assert (Hpe : exponent (mkDecimal (Some (sig q * sig b))
                            (GoInt.add (exponent q) (exponent b)))
                = exponent q + exponent b) by (apply add_exact; exact HP).
  set (p := mkDecimal (Some (sig q * sig b))
                      (GoInt.add (exponent q) (exponent b))) in *.
  set (ai := sig a) in *. set (bi := sig b) in *. set (qi := sig q) in *.
  set (ea := exponent a) in *. set (eb := exponent b) in *.
  set (eq := exponent q) in *.
  assert (Hsp : sig p = qi * bi) by (unfold sig; rewrite Hpi; reflexivity).
  assert (Hfin : forall r, num_eq r q ->
            num_eq r q /\ (0 <= exponent r * exponent q ->
                           exists r' q', Cmp r q = Some (0, (r', q')))).
  { intros r Hr. split; [exact Hr|]. intros Hs.
    destruct (Cmp_same_sign r q Hs) as (r' & q' & Hc).
    unfold num_eq in Hr. rewrite Hr in Hc. eauto. }
  destruct (Z.eq_dec (Z.rem ai bi) 0) as [Hrem|Hrem].
  - (* exact quotient of the significands *)
    rewrite (Quo_exact_spec MaxDecimalDigits a b Hb Hrem).
    fold ea eb. rewrite sub_exact by exact HE.
    do 2 eexists. split; [reflexivity|]. apply Hfin.
    set (c := Z.min (ea - eb) eq).
    apply (num_eq_at _ q c); [cbn; lia|fold eq; lia|].
    apply (num_eq_at a p (c + eb)) in Heq; [|fold ea; lia|lia].
    unfold scaled in *. cbn [sig integer exponent].
    fold ai bi ea qi eq in Heq |- *. rewrite Hsp, Hpe in Heq.
    pose proof (Z.quot_rem' ai bi) as Hqr. rewrite Hrem, Z.add_0_r in Hqr.
    replace (ea - (c + eb)) with (ea - eb - c) in Heq by lia.
    replace (eq + eb - (c + eb)) with (eq - c) in Heq by lia.
    apply (Z.mul_reg_l _ _ bi Hb).
    replace (bi * (Z.quot ai bi * 10 ^ (ea - eb - c)))
      with (bi * Z.quot ai bi * 10 ^ (ea - eb - c)) by ring.
    rewrite <- Hqr, Heq. ring.
  - (* long division *)
    apply (num_eq_at a p (Z.min ea (eq + eb))) in Heq; [|fold ea; lia|lia].
    unfold scaled in Heq. fold ai ea in Heq. rewrite Hsp, Hpe in Heq.
    assert (Hge : eq + eb <= ea).
    { destruct (Z_le_gt_dec (eq + eb) ea) as [H|H]; [exact H|exfalso].
      rewrite Z.min_l, Z.sub_diag, Z.mul_1_r in Heq by lia.
      apply Hrem. apply Z.rem_divide; [exact Hb|].
      exists (qi * 10 ^ (eq + eb - ea)). rewrite Heq. ring. }
    rewrite Z.min_r, Z.sub_diag, Z.mul_1_r in Heq by exact Hge.
    set (K := ea - eb - eq).
    replace (ea - (eq + eb)) with K in Heq by (unfold K; lia).
    assert (HK : 0 <= K) by (unfold K; lia).
    assert (Hai : ai <> 0).
    { intros H. apply Hrem. rewrite H. apply Z.rem_0_l. exact Hb. }
    assert (HabsK : Z.abs ai * 10 ^ K = Z.abs qi * Z.abs bi).
    { rewrite <- Z.abs_mul, <- Heq, Z.abs_mul.
      f_equal. symmetry. apply Z.abs_eq. apply Z.pow_nonneg. lia. }
    assert (HmodK : (Z.abs ai * 10 ^ K) mod Z.abs bi = 0).
    { rewrite HabsK. apply Z.mod_mul. lia. }
    destruct (Quo_inexact_spec MaxDecimalDigits a b HM Hb Hrem HE)
      as (ds & _ & Hk & HQ & Hstop & Hfirst).
    { fold ea eb. lia. }
    fold ai bi ea eb in Hk, HQ, Hstop, Hfirst.
    set (k := GoInt.len ds) in *.
    rewrite HQ. do 2 eexists. split; [reflexivity|]. apply Hfin.
    assert (HkK : k <= K).
    { destruct (Z_le_gt_dec k K) as [H|H]; [exact H|exfalso].
      apply (Hfirst K); [lia|exact HmodK]. }
    assert (Hz : (Z.abs ai * 10 ^ k) mod Z.abs bi = 0).
    { destruct Hstop as [H|H]; [exact H|].
      replace k with K by (unfold K in *; lia). exact HmodK. }
    apply (num_eq_at _ q eq); [cbn [exponent]; unfold K in HkK; lia|fold eq; lia|].
    unfold scaled. cbn [sig integer exponent]. fold qi eq.
    rewrite Z.sub_diag, Z.mul_1_r.
    replace (ea - eb - k - eq) with (K - k) by (unfold K; lia).
    apply (Z.mul_reg_l _ _ bi Hb).
    rewrite (Z.mul_comm bi qi), <- Heq.
    pose proof (Z.div_mod (Z.abs ai * 10 ^ k) (Z.abs bi) ltac:(lia)) as Hdm.
    rewrite Hz, Z.add_0_r in Hdm.
    set (Zk := Z.abs ai * 10 ^ k / Z.abs bi) in *.
    replace (bi * (quo_sign ai bi * Zk * 10 ^ (K - k)))
      with (quo_sign ai bi * bi * Zk * 10 ^ (K - k)) by ring.
    rewrite quo_sign_abs by auto.
    replace (Z.sgn ai * Z.abs bi * Zk * 10 ^ (K - k))
      with (Z.sgn ai * (Z.abs bi * Zk) * 10 ^ (K - k)) by ring.
    rewrite <- Hdm.
    replace (10 ^ K) with (10 ^ k * 10 ^ (K - k))
      by (rewrite <- Z.pow_add_r by lia; f_equal; lia).
    replace (Z.sgn ai * (Z.abs ai * 10 ^ k) * 10 ^ (K - k))
      with (Z.sgn ai * Z.abs ai * (10 ^ k * 10 ^ (K - k))) by ring.
    f_equal. lia.
Qed.

(** [Quo_exact_roundtrip] at [-1 / 8 = -0.125], through the long
    division. *)
Lemma Quo_exact_roundtrip_witness :
  0 <= 200 <= GoInt.max_int
  /\ sig (mkDecimal (Some 8) 0) <> 0
  /\ GoInt.in_int (0 - 0)
  /\ GoInt.in_int (-3 + 0)
  /\ - 200 <= -3
  /\ (exists p b',
        Mul (mkDecimal (Some (-125)) (-3)) (mkDecimal (Some 8) 0) = Some (p, b')
        /\ num_eq (mkDecimal (Some (-1)) 0) p)
  /\ exists r b',
       Quo 200 (mkDecimal (Some (-1)) 0) (mkDecimal (Some 8) 0) = Some (r, b')
       /\ num_eq r (mkDecimal (Some (-125)) (-3))
       /\ (0 <= exponent r * -3 ->
           exists r' q',
             Cmp r (mkDecimal (Some (-125)) (-3)) = Some (0, (r', q'))).
Proof.
  assert (H0 : 0 <= 200 <= GoInt.max_int) by (split; discriminate).
  assert (H1 : sig (mkDecimal (Some 8) 0) <> 0) by discriminate.
  assert (H2 : GoInt.in_int (0 - 0)) by (split; discriminate).
  assert (H3 : GoInt.in_int (-3 + 0)) by (split; discriminate).
  assert (H4 : - 200 <= -3) by discriminate.
  assert (H5 : exists p b',
             Mul (mkDecimal (Some (-125)) (-3)) (mkDecimal (Some 8) 0) = Some (p, b')
             /\ num_eq (mkDecimal (Some (-1)) 0) p).
  { do 2 eexists. split; reflexivity. }
  repeat (split; [assumption|]).
  exact (Quo_exact_roundtrip 200 (mkDecimal (Some (-1)) 0)
           (mkDecimal (Some 8) 0) (mkDecimal (Some (-125)) (-3))
           H0 H1 H2 H3 H4 H5).
Defined.

(** ** Failed parses *)

(** C9.  When [x.SetString(y)] reports failure, [y] did not match the
    pattern and the receiver is its previous state after lazy
    initialisation: the same exponent and the same significand, a nil
    significand having become zero.  ([SetString_total]: the call always
    returns.) *)
Theorem SetString_failure_keeps_value (x : Decimal) (y : Str.t) (x' : Decimal) :
  SetString x y = Some (x', false) ->
  Pattern.FindStringSubmatch y = []
  /\ x' = ensureInitialized x
  /\ integer x' = Some (sig x)
  /\ exponent x' = exponent x.
Proof.
  intros H. apply SetString_failure in H as [Hm ->].
  rewrite ensureInitialized_eq. repeat split. exact Hm.
Qed.

(** [SetString_failure_keeps_value] at [1.5] and the text [12.3.4]. *)
Lemma SetString_failure_keeps_value_witness :
  SetString (mkDecimal (Some 15) (-1)) $"12.3.4"
    = Some (mkDecimal (Some 15) (-1), false)
  /\ Pattern.FindStringSubmatch $"12.3.4" = []
  /\ mkDecimal (Some 15) (-1) = ensureInitialized (mkDecimal (Some 15) (-1))
  /\ integer (mkDecimal (Some 15) (-1)) = Some (sig (mkDecimal (Some 15) (-1)))
  /\ exponent (mkDecimal (Some 15) (-1)) = -1.
Proof.
  split; [reflexivity|].
  exact (SetString_failure_keeps_value
           (mkDecimal (Some 15) (-1)) $"12.3.4" (mkDecimal (Some 15) (-1))
           eq_refl).
Defined.

(** ** Non-finite floats *)

(** C10.  For NaN, +Inf and -Inf the text produced by [FormatFloat] is not
    in the grammar, [SetFloat64] drops the failure of [SetString] and the
    receiver keeps its (initialised) previous value; so [New] returns, with
    no panic, the decimal with significand 0 and exponent 0, which is
    numerically zero. *)
Theorem SetFloat64_non_finite
    (format_finite : spec_float -> Str.t) (x : Decimal) (y : spec_float) :
  non_finite y = true ->
  SetFloat64 format_finite x y = Some (ensureInitialized x)
  /\ New format_finite y = Some (mkDecimal (Some 0) 0)
  /\ num_eq (mkDecimal (Some 0) 0) new_Decimal.
Proof.
  intros Hy.
  assert (Hm : Pattern.FindStringSubmatch (FormatFloat format_finite y) = []).
  { destruct y as [s|[|]| |s m e]; try discriminate Hy; reflexivity. }
  assert (H : forall d, SetFloat64 format_finite d y = Some (ensureInitialized d)).
  { intros d. unfold SetFloat64.
    rewrite (SetString_no_match _ _ Hm), ensureInitialized_idem. reflexivity. }
  split; [apply H|]. split; [unfold New; rewrite H; reflexivity|reflexivity].
Qed.

(** [SetFloat64_non_finite] at NaN. *)
Lemma SetFloat64_non_finite_witness :
  non_finite S754_nan = true
  /\ SetFloat64 (fun _ => []) (mkDecimal (Some 15) (-1)) S754_nan
      = Some (ensureInitialized (mkDecimal (Some 15) (-1)))
  /\ New (fun _ => []) S754_nan = Some (mkDecimal (Some 0) 0)
  /\ num_eq (mkDecimal (Some 0) 0) new_Decimal.
Proof.
  split; [reflexivity|].
  exact (SetFloat64_non_finite (fun _ => []) (mkDecimal (Some 15) (-1))
           S754_nan eq_refl).
Defined.

(** * Further properties of the package *)

(** ** Parsing *)

(** X1.  [Parse] never panics and accepts exactly the text of the grammar:
    on it [Parse] returns a decimal and [MustParse] the same decimal; on
    any other text [Parse] returns the error carrying the text and
    [MustParse] panics. *)
Theorem Parse_accepts_exactly_the_grammar (s : Str.t) :
  (in_grammar s -> exists d, Parse s = Some (inl d) /\ MustParse s = Some d)
  /\ (~ in_grammar s ->
      Parse s = Some (inr (InvalidDecimalString s)) /\ MustParse s = None).
Proof.
  split.
  - intros (g1 & g2 & g3 & g4 & g5 & Hm).
    pose proof (FindStringSubmatch_complete _ _ _ _ _ _ Hm) as Hf.
    unfold MustParse, Parse.
    destruct (SetString_total new_Decimal s) as ([d ok] & Hs). rewrite Hs.
    destruct ok; [eauto|].
    apply SetString_failure in Hs as [Hs _]. rewrite Hs in Hf. discriminate.
  - intros Hn. unfold MustParse, Parse.
    destruct (FindStringSubmatch_sound s) as [Hf|(g1 & g2 & g3 & g4 & g5 & _ & Hm)].
    + rewrite (SetString_no_match _ _ Hf). split; reflexivity.
    + exfalso. apply Hn. exists g1, g2, g3, g4, g5. exact Hm.
Qed.

(** [Parse_accepts_exactly_the_grammar] at ["-1.50e3"] and at ["1."]. *)
Lemma Parse_accepts_exactly_the_grammar_witness :
  in_grammar $"-1.50e3"
  /\ (exists d, Parse $"-1.50e3" = Some (inl d) /\ MustParse $"-1.50e3" = Some d)
  /\ ~ in_grammar $"1."
  /\ Parse $"1." = Some (inr (InvalidDecimalString $"1."))
  /\ MustParse $"1." = None.
Proof.
  assert (H1 : in_grammar $"-1.50e3").
  { exists $"-1", $".50", $"50", $"e3", $"3".
    split; [reflexivity|]. split.
    - exists $"-", $"1". repeat split; try discriminate.
      right. eexists. split; reflexivity.
    - split.
      + right. repeat split. discriminate.
      + right. exists "e"%char. repeat split.
        exists [], $"3". repeat split; auto. discriminate. }
  assert (H2 : ~ in_grammar $"1.").
  { intros (g1 & g2 & g3 & g4 & g5 & Hm).
    apply FindStringSubmatch_complete in Hm. discriminate Hm. }
  split; [exact H1|].
  split; [exact (proj1 (Parse_accepts_exactly_the_grammar $"-1.50e3") H1)|].
  split; [exact H2|].
  exact (proj2 (Parse_accepts_exactly_the_grammar $"1.") H2).
Defined.

Lemma drop_while_decompose c s :
  exists k, s = List.repeat c k ++ Str.drop_while (Ascii.eqb c) s.
Proof.
  induction s as [|a s IH].
  - exists O. reflexivity.
  - cbn [Str.drop_while]. destruct (Ascii.eqb c a) eqn:E.
    + apply Ascii.eqb_eq in E. subst a. destruct IH as (k & IH).
      exists (S k). cbn [List.repeat app]. f_equal. exact IH.
    + exists O. reflexivity.
Qed.

Lemma rev_repeat {A} (c : A) k : rev (List.repeat c k) = List.repeat c k.
Proof.
  induction k as [|k IH]; [reflexivity|].
  cbn [List.repeat rev]. rewrite IH.
  clear IH. induction k as [|k IH]; [reflexivity|].
  cbn [List.repeat app]. f_equal. exact IH.
Qed.

Lemma TrimRight_decompose s c :
  exists k, s = Str.TrimRight s c ++ List.repeat c k.
Proof.
  unfold Str.TrimRight. destruct (drop_while_decompose c (rev s)) as (k & H).
  exists k. rewrite <- (rev_involutive s) at 1. rewrite H at 1.
  rewrite rev_app_distr, rev_repeat. reflexivity.
Qed.

Lemma drop_while_head p s :
  match Str.drop_while p s with c :: _ => p c = false | [] => True end.
Proof.
  induction s as [|a s IH]; [exact I|].
  cbn [Str.drop_while]. destruct (p a) eqn:E; [exact IH|exact E].
Qed.

(** Trimming is idempotent. *)
Lemma TrimRight_idem s c : Str.TrimRight (Str.TrimRight s c) c = Str.TrimRight s c.
Proof.
  unfold Str.TrimRight. rewrite rev_involutive.
  pose proof (drop_while_head (Ascii.eqb c) (rev s)) as H.
  destruct (Str.drop_while (Ascii.eqb c) (rev s)) as [|a r]; [reflexivity|].
  cbn [Str.drop_while]. rewrite H. reflexivity.
Qed.

Lemma TrimRight_repeat_app s c k :
  Str.TrimRight (s ++ List.repeat c k) c = Str.TrimRight s c.
Proof.
  unfold Str.TrimRight. rewrite rev_app_distr, rev_repeat.
  induction k as [|k IH]; [reflexivity|].
  cbn [List.repeat app Str.drop_while]. rewrite Ascii.eqb_refl. exact IH.
Qed.

Lemma forallb_repeat_zero k : forallb Digits.is_digit (List.repeat "0"%char k) = true.
Proof. induction k as [|k IH]; [reflexivity|]. cbn [List.repeat forallb]. rewrite IH. reflexivity. Qed.

Lemma value_repeat_zero k : Digits.value (List.repeat "0"%char k) = 0.
Proof.
  induction k as [|k IH]; [reflexivity|].
  cbn [List.repeat]. rewrite value_cons, IH. reflexivity.
Qed.

Lemma len_repeat {A} (c : A) k : GoInt.len (List.repeat c k) = Z.of_nat k.
Proof. unfold GoInt.len. rewrite repeat_length. reflexivity. Qed.

Lemma value_app_zeros s k :
  Digits.value (s ++ List.repeat "0"%char k) = Digits.value s * 10 ^ Z.of_nat k.
Proof. rewrite value_app, value_repeat_zero, len_repeat. lia. Qed.

(** The integer a signed number followed by more digits stands for. *)
Lemma atoi_signed_number_app g :
  signed_number g ->
  exists sgn m,
    (sgn = 1 \/ sgn = -1)
    /\ forall t, forallb Digits.is_digit t = true ->
         Digits.atoi (g ++ t)
         = Some (sgn * (m * 10 ^ GoInt.len t + Digits.value t)).
Proof.
  intros (sg & ds & -> & Hs & Hne & Hd).
  assert (Happ : forall t, forallb Digits.is_digit t = true ->
            ds ++ t <> [] /\ forallb Digits.is_digit (ds ++ t) = true).
  { intros t Ht. split.
    - intros H. apply app_eq_nil in H as [H _]. contradiction.
    - rewrite forallb_app, Hd, Ht. reflexivity. }
  destruct Hs as [->|(c & -> & Hc)].
  - exists 1, (Digits.value ds). split; [left; reflexivity|].
    intros t Ht. destruct (Happ t Ht) as [H1 H2].
    cbn [app]. rewrite atoi_digits, value_app by auto. f_equal; lia.
  - destruct (Ascii.eqb c "-") eqn:E.
    + exists (-1), (Digits.value ds). split; [right; reflexivity|].
      intros t Ht. destruct (Happ t Ht) as [H1 H2].
      rewrite <- app_assoc. cbn [app].
      rewrite atoi_signed, E, value_app by auto. f_equal; lia.
    + exists 1, (Digits.value ds). split; [left; reflexivity|].
      intros t Ht. destruct (Happ t Ht) as [H1 H2].
      rewrite <- app_assoc. cbn [app].
      rewrite atoi_signed, E, value_app by auto. f_equal; lia.
Qed.

Lemma Parse_value_of_groups (s g1 g2 g3 g4 g5 : Str.t) :
  matches_pattern s g1 g2 g3 g4 g5 ->
  GoInt.len g3 <= GoInt.max_int ->
  GoInt.in_int (ParseInt g5 - GoInt.len g3) ->
  exists N d,
    Digits.atoi (g1 ++ g3) = Some N
    /\ Parse s = Some (inl d)
    /\ exponent d = ParseInt g5 - GoInt.len (Str.TrimRight g3 "0")
    /\ num_eq d (mkDecimal (Some N) (ParseInt g5 - GoInt.len g3)).
Proof.
  intros Hm Hl He.
  pose proof (FindStringSubmatch_complete _ _ _ _ _ _ Hm) as Hf.
  destruct Hm as (_ & H1 & H2 & H4).
  assert (Hd3 : forallb Digits.is_digit g3 = true).
  { destruct H2 as [[_ ->]|(_ & _ & H)]; [reflexivity|exact H]. }
  destruct (TrimRight_decompose g3 "0") as (k & Hk).
  set (tr := Str.TrimRight g3 "0") in *.
  assert (Hdt : forallb Digits.is_digit tr = true) by (apply forallb_TrimRight; exact Hd3).
  assert (Hlen : GoInt.len g3 = GoInt.len tr + Z.of_nat k).
  { rewrite Hk at 1. rewrite len_app, len_repeat. reflexivity. }
  pose proof (len_nonneg tr) as Hlt.
  assert (Hp5 : GoInt.in_int (ParseInt g5)).
  { unfold ParseInt, GoInt.in_int, GoInt.min_int, GoInt.max_int.
    destruct (Digits.atoi g5); lia. }
  destruct (atoi_signed_number_app g1 H1) as (sgn & m & Hsgn & Hat).
  pose proof (Hat tr Hdt) as Ht.
  pose proof (Hat g3 Hd3) as H3.
  exists (sgn * (m * 10 ^ GoInt.len g3 + Digits.value g3)).
  exists (mkDecimal (Some (sgn * (m * 10 ^ GoInt.len tr + Digits.value tr)))
                    (ParseInt g5 - GoInt.len tr)).
  split; [exact H3|].
  assert (Hexp : (if GoInt.len g5 >? 0
                  then GoInt.add (GoInt.mul (GoInt.len tr) (-1)) (ParseInt g5)
                  else GoInt.mul (GoInt.len tr) (-1))
                 = ParseInt g5 - GoInt.len tr).
  { assert (Hneg : GoInt.mul (GoInt.len tr) (-1) = - GoInt.len tr).
    { apply neg_exact; unfold GoInt.in_int, GoInt.min_int, GoInt.max_int in *; lia. }
    rewrite Hneg. destruct (GoInt.len g5 >? 0) eqn:E5.
    - rewrite add_exact; [lia|].
      unfold GoInt.in_int, GoInt.min_int, GoInt.max_int in *. lia.
    - rewrite Z.gtb_ltb in E5. apply Z.ltb_ge in E5.
      assert (g5 = []).
      { destruct g5; [reflexivity|]. unfold GoInt.len in E5. cbn [List.length] in E5. lia. }
      subst g5. change (ParseInt []) with 0. lia. }
  split.
  { unfold Parse, SetString. rewrite Hf.
    change (GoInt.len [s; g1; g2; g3; g4; g5] =? 6) with true.
    cbn [negb nth]. fold tr. rewrite Hexp.
    unfold BigInt.SetString. rewrite Ht. reflexivity. }
  split; [reflexivity|].
  apply (num_eq_at _ _ (ParseInt g5 - GoInt.len g3)); cbn [exponent]; try lia.
  unfold scaled. cbn [sig integer exponent].
  rewrite Z.sub_diag, Z.mul_1_r.
  replace (ParseInt g5 - GoInt.len tr - (ParseInt g5 - GoInt.len g3))
    with (Z.of_nat k) by lia.
  assert (Hv : Digits.value g3 = Digits.value tr * 10 ^ Z.of_nat k).
  { rewrite Hk. apply value_app_zeros. }
  rewrite Hlen, Hv, Z.pow_add_r by lia. ring.
Qed.

(** X2.  On text of the grammar [Parse] returns the number the text
    denotes: the signed integer written by the integer and fraction digits
    together, scaled by ten to the explicit exponent minus the number of
    fraction digits.  Trailing zeros of the fraction are dropped from the
    representation (the exponent is the explicit one minus the length of
    the trimmed fraction) without changing the value. *)
Theorem Parse_value (s g1 g2 g3 g4 g5 : Str.t) :
  matches_pattern s g1 g2 g3 g4 g5 ->
  GoInt.len g3 <= GoInt.max_int ->
  GoInt.in_int (ParseInt g5 - GoInt.len g3) ->
  exists N d,
    Digits.atoi (g1 ++ g3) = Some N
    /\ Parse s = Some (inl d)
    /\ exponent d = ParseInt g5 - GoInt.len (Str.TrimRight g3 "0")
    /\ num_eq d (mkDecimal (Some N) (ParseInt g5 - GoInt.len g3)).
Proof. exact (Parse_value_of_groups s g1 g2 g3 g4 g5). Qed.

(** [Parse_value] at ["-1.50e3"]. *)
Lemma Parse_value_witness :
  matches_pattern $"-1.50e3" $"-1" $".50" $"50" $"e3" $"3"
  /\ GoInt.len $"50" <= GoInt.max_int
  /\ GoInt.in_int (ParseInt $"3" - GoInt.len $"50")
  /\ exists N d,
       Digits.atoi ($"-1" ++ $"50") = Some N
       /\ Parse $"-1.50e3" = Some (inl d)
       /\ exponent d = ParseInt $"3" - GoInt.len (Str.TrimRight $"50" "0")
       /\ num_eq d (mkDecimal (Some N) (ParseInt $"3" - GoInt.len $"50")).
Proof.
  assert (H1 : matches_pattern $"-1.50e3" $"-1" $".50" $"50" $"e3" $"3").
  { split; [reflexivity|]. split.
    - exists $"-", $"1". repeat split; try discriminate.
      right. eexists. split; reflexivity.
    - split.
      + right. repeat split. discriminate.
      + right. exists "e"%char. repeat split.
        exists [], $"3". repeat split; auto. discriminate. }
  assert (H2 : GoInt.len $"50" <= GoInt.max_int) by discriminate.
  assert (H3 : GoInt.in_int (ParseInt $"3" - GoInt.len $"50")) by (split; discriminate).
  split; [exact H1|]. split; [exact H2|]. split; [exact H3|].
  exact (Parse_value _ _ _ _ _ _ H1 H2 H3).
Defined.

(** ** Alignment, comparison, addition and subtraction *)

Lemma align_initialized (x y : Decimal) :
  exists x' y',
    align (ensureInitialized x) (ensureInitialized y) = Some (x', y')
    /\ integer x' = Some (sig x') /\ integer y' = Some (sig y').
Proof.
  unfold align. rewrite !deref_ensureInitialized, !exponent_ensureInitialized.
  rewrite !ensureInitialized_eq.
  destruct (exponent x =? exponent y); cbn [negb];
    [|destruct (exponent x >? exponent y)];
    do 2 eexists; (split; [reflexivity|split; reflexivity]).
Qed.

Lemma align_swap (x y x' y' : Decimal) :
  align x y = Some (x', y') -> align y x = Some (y', x').
Proof.
  unfold align. rewrite (Z.eqb_sym (exponent y) (exponent x)).
  destruct (exponent x =? exponent y) eqn:E; cbn [negb].
  - intros H. inversion H. reflexivity.
  - apply Z.eqb_neq in E.
    replace (BigInt.Abs (BigInt.Abs (exponent y) - BigInt.Abs (exponent x)))
      with (BigInt.Abs (BigInt.Abs (exponent x) - BigInt.Abs (exponent y)))
      by (unfold BigInt.Abs; lia).
    destruct (exponent x >? exponent y) eqn:Eg.
    + apply Z.gtb_lt in Eg.
      destruct (exponent y >? exponent x) eqn:Eg';
        [apply Z.gtb_lt in Eg'; lia|].
      destruct (deref x); intros H; inversion H. reflexivity.
    + rewrite Z.gtb_ltb in Eg. apply Z.ltb_ge in Eg.
      destruct (exponent y >? exponent x) eqn:Eg';
        [|rewrite Z.gtb_ltb in Eg'; apply Z.ltb_ge in Eg'; lia].
      destruct (deref y); intros H; inversion H. reflexivity.
Qed.

Lemma align_same_sign_values (x y : Decimal) :
  0 <= exponent x * exponent y ->
  exists x' y',
    align (ensureInitialized x) (ensureInitialized y) = Some (x', y')
    /\ exponent x' = Z.min (exponent x) (exponent y)
    /\ exponent y' = Z.min (exponent x) (exponent y)
    /\ num_eq x' x /\ num_eq y' y.
Proof.
  intros Hs. rewrite (align_same_sign x y Hs).
  do 2 eexists. split; [reflexivity|]. split; [reflexivity|].
  split; [reflexivity|].
  set (m := Z.min (exponent x) (exponent y)).
  split; apply (num_eq_at _ _ m); cbn [exponent]; try lia;
    unfold scaled at 1; cbn [sig integer exponent];
    rewrite Z.sub_diag, Z.mul_1_r; reflexivity.
Qed.

(** X3.  When the exponents of [x] and [y] do not have opposite signs,
    [align] (as [Cmp], [Add] and [Sub] call it, after initialisation) gives
    both operands the smaller of the two exponents and leaves the value
    each of them denotes unchanged. *)
Theorem align_same_sign_preserves_values (x y : Decimal) :
  0 <= exponent x * exponent y ->
  exists x' y',
    align (ensureInitialized x) (ensureInitialized y) = Some (x', y')
    /\ exponent x' = Z.min (exponent x) (exponent y)
    /\ exponent y' = Z.min (exponent x) (exponent y)
    /\ num_eq x' x /\ num_eq y' y.
Proof. exact (align_same_sign_values x y). Qed.

(** [align_same_sign_preserves_values] at [1.5] and [0.25]. *)
Lemma align_same_sign_preserves_values_witness :
  0 <= -1 * -2
  /\ exists x' y',
       align (ensureInitialized (mkDecimal (Some 15) (-1)))
             (ensureInitialized (mkDecimal (Some 25) (-2))) = Some (x', y')
       /\ exponent x' = Z.min (-1) (-2)
       /\ exponent y' = Z.min (-1) (-2)
       /\ num_eq x' (mkDecimal (Some 15) (-1))
       /\ num_eq y' (mkDecimal (Some 25) (-2)).
Proof.
  assert (H : 0 <= -1 * -2) by discriminate.
  split; [exact H|].
  exact (align_same_sign_preserves_values
           (mkDecimal (Some 15) (-1)) (mkDecimal (Some 25) (-2)) H).
Defined.

(** X4.  When the exponents do not have opposite signs, [x.Cmp(y)] returns
    -1, 0 or +1 as the value of [x] is less than, equal to or greater than
    the value of [y], whatever representations the two values have; the
    operands it leaves behind denote the same values as before. *)
Theorem Cmp_same_sign_compares_values (x y : Decimal) :
  0 <= exponent x * exponent y ->
  exists x' y',
    Cmp x y = Some (cmp_of (num_compare x y), (x', y'))
    /\ num_eq x' x /\ num_eq y' y.
Proof.
  intros Hs. unfold Cmp.
  destruct (align_same_sign_values x y Hs)
    as (x' & y' & Ha & _ & _ & Hx & Hy).
  pose proof (align_same_sign x y Hs) as Ha'. rewrite Ha' in Ha.
  inversion Ha; subst x' y'. rewrite Ha'.
  cbn [deref integer]. do 2 eexists. split; [reflexivity|]. split; assumption.
Qed.

(** [Cmp_same_sign_compares_values] at [1.5] against [1.25]. *)
Lemma Cmp_same_sign_compares_values_witness :
  0 <= -1 * -2
  /\ exists x' y',
       Cmp (mkDecimal (Some 15) (-1)) (mkDecimal (Some 125) (-2))
         = Some (1, (x', y'))
       /\ num_eq x' (mkDecimal (Some 15) (-1))
       /\ num_eq y' (mkDecimal (Some 125) (-2)).
Proof.
  assert (H : 0 <= -1 * -2) by discriminate.
  split; [exact H|].
  exact (Cmp_same_sign_compares_values
           (mkDecimal (Some 15) (-1)) (mkDecimal (Some 125) (-2)) H).
Defined.

Lemma BigInt_Cmp_opp a b : BigInt.Cmp b a = - BigInt.Cmp a b.
Proof.
  unfold BigInt.Cmp. rewrite (Z.compare_antisym a b).
  destruct (a ?= b); reflexivity.
Qed.

Lemma Cmp_returns (x y : Decimal) :
  exists c x' y',
    Cmp x y = Some (c, (x', y')) /\ (c = -1 \/ c = 0 \/ c = 1).
Proof.
  unfold Cmp. destruct (align_initialized x y) as (x' & y' & -> & Hx & Hy).
  unfold deref. rewrite Hx, Hy. do 3 eexists. split; [reflexivity|].
  unfold BigInt.Cmp. destruct (_ ?= _); auto.
Qed.

Lemma Cmp_swap (x y x' y' : Decimal) (c : Z) :
  Cmp x y = Some (c, (x', y')) -> Cmp y x = Some (- c, (y', x')).
Proof.
  unfold Cmp.
  destruct (align (ensureInitialized x) (ensureInitialized y))
    as [[x1 y1]|] eqn:Ea; [|discriminate].
  rewrite (align_swap _ _ _ _ Ea).
  destruct (deref x1) as [xi|]; [|discriminate].
  destruct (deref y1) as [yi|]; [|discriminate].
  intros H. inversion H; subst. rewrite BigInt_Cmp_opp. reflexivity.
Qed.

(** X5.  [Cmp] never panics, returns -1, 0 or +1, and is antisymmetric for
    every pair of operands, also where [align] miscomputes: [y.Cmp(x)]
    returns the negation of what [x.Cmp(y)] returns, and both calls leave
    the two operands in the same states. *)
Theorem Cmp_antisymmetric (x y : Decimal) :
  exists c x' y',
    Cmp x y = Some (c, (x', y'))
    /\ Cmp y x = Some (- c, (y', x'))
    /\ (c = -1 \/ c = 0 \/ c = 1).
Proof.
  destruct (Cmp_returns x y) as (c & x' & y' & H & Hc).
  exists c, x', y'. split; [exact H|]. split; [|exact Hc].
  apply Cmp_swap. exact H.
Qed.

(** X6.  [Cmp] and [Sub] agree on every pair of operands: [x.Sub(y)]
    leaves in [x] a decimal whose [Sign] is what [x.Cmp(y)] returns, and
    leaves [y] as [Cmp] does. *)
Theorem Cmp_is_Sign_of_Sub (x y : Decimal) :
  exists c x' y' d,
    Cmp x y = Some (c, (x', y'))
    /\ Sub x y = Some (d, y')
    /\ Sign d = Some (c, d).
Proof.
  destruct (Cmp_returns x y) as (c & x' & y' & H & _).
  exists c, x', y'. revert H. unfold Cmp, Sub.
  destruct (align (ensureInitialized x) (ensureInitialized y))
    as [[x1 y1]|]; [|discriminate].
  destruct (deref x1) as [xi|]; [|discriminate].
  destruct (deref y1) as [yi|]; [|discriminate].
  intros H. inversion H; subst. eexists. split; [reflexivity|].
  split; [reflexivity|].
  unfold Sign, ensureInitialized, deref. cbn [integer].
  do 2 f_equal. unfold BigInt.Sign, BigInt.Cmp.
  destruct (Z.compare_spec xi yi); lia.
Qed.

(** X7.  When the exponents do not have opposite signs, [x.Add(y)] and
    [x.Sub(y)] leave in [x] exactly the sum and the difference of the two
    values, held at the smaller exponent; [y] is rescaled to that exponent
    too, its value unchanged. *)
Theorem Add_Sub_same_sign (x y : Decimal) :
  0 <= exponent x * exponent y ->
  let m := Z.min (exponent x) (exponent y) in
  exists y',
    Add x y = Some (mkDecimal (Some (scaled x m + scaled y m)) m, y')
    /\ Sub x y = Some (mkDecimal (Some (scaled x m - scaled y m)) m, y')
    /\ exponent y' = m /\ num_eq y' y.
Proof.
  intros Hs m. unfold Add, Sub.
  destruct (align_same_sign_values x y Hs)
    as (x' & y' & Ha & _ & Hey & _ & Hy).
  pose proof (align_same_sign x y Hs) as Ha'. rewrite Ha' in Ha.
  inversion Ha; subst x' y'. rewrite Ha'. fold m in Hey, Hy |- *.
  cbn [deref integer exponent]. eexists.
  split; [reflexivity|]. split; [reflexivity|]. split; assumption.
Qed.

(** [Add_Sub_same_sign] at [1.5] and [0.25]. *)
Lemma Add_Sub_same_sign_witness :
  0 <= -1 * -2
  /\ exists y',
       Add (mkDecimal (Some 15) (-1)) (mkDecimal (Some 25) (-2))
         = Some (mkDecimal (Some (150 + 25)) (-2), y')
       /\ Sub (mkDecimal (Some 15) (-1)) (mkDecimal (Some 25) (-2))
         = Some (mkDecimal (Some (150 - 25)) (-2), y')
       /\ exponent y' = -2 /\ num_eq y' (mkDecimal (Some 25) (-2)).
Proof.
  assert (H : 0 <= -1 * -2) by discriminate.
  split; [exact H|].
  exact (Add_Sub_same_sign
           (mkDecimal (Some 15) (-1)) (mkDecimal (Some 25) (-2)) H).
Defined.

Lemma Add_swap (x y r y' : Decimal) :
  Add x y = Some (r, y') -> exists x', Add y x = Some (r, x').
Proof.
  unfold Add.
  destruct (align (ensureInitialized x) (ensureInitialized y))
    as [[x1 y1]|] eqn:Ea; [|discriminate].
  rewrite (align_swap _ _ _ _ Ea).
  assert (He : exponent x1 = exponent y1).
  { unfold align in Ea.
    rewrite !exponent_ensureInitialized, !deref_ensureInitialized in Ea.
    destruct (exponent x =? exponent y) eqn:E; cbn [negb] in Ea.
    - apply Z.eqb_eq in E. inversion Ea.
      rewrite !exponent_ensureInitialized. exact E.
    - destruct (exponent x >? exponent y); inversion Ea; cbn [exponent];
        rewrite ?exponent_ensureInitialized; reflexivity. }
  destruct (deref x1) as [xi|]; [|discriminate].
  destruct (deref y1) as [yi|]; [|discriminate].
  intros H. inversion H; subst. eexists.
  rewrite He, (Z.add_comm yi xi). reflexivity.
Qed.

(** X8.  [Add] never panics and is commutative on every pair of operands,
    also where [align] miscomputes: [x.Add(y)] leaves in [x] exactly the
    decimal that [y.Add(x)] leaves in [y]. *)
Theorem Add_commutative (x y : Decimal) :
  exists r y' x', Add x y = Some (r, y') /\ Add y x = Some (r, x').
Proof.
  assert (H : exists r y', Add x y = Some (r, y')).
  { unfold Add. destruct (align_initialized x y) as (x' & y' & -> & Hx & Hy).
    unfold deref. rewrite Hx, Hy. eauto. }
  destruct H as (r & y' & H). destruct (Add_swap _ _ _ _ H) as (x' & H').
  exists r, y', x'. split; assumption.
Qed.

(** ** Multiplication, negation, absolute value *)

(** X9.  When the sum of the exponents fits an [int], [x.Mul(y)] leaves in
    [x] a decimal denoting the product of the two values (the product of
    the significands at the sum of the exponents), and multiplication in
    the other order gives a decimal of the same value. *)
Theorem Mul_multiplies_values (x y : Decimal) :
  GoInt.in_int (exponent x + exponent y) ->
  exists r r',
    Mul x y = Some (r, ensureInitialized y)
    /\ Mul y x = Some (r', ensureInitialized x)
    /\ num_eq r (mkDecimal (Some (sig x * sig y)) (exponent x + exponent y))
    /\ num_eq r r'.
Proof.
  intros He. rewrite !Mul_unfold.
  assert (He' : GoInt.in_int (exponent y + exponent x))
    by (rewrite Z.add_comm; exact He).
  rewrite !add_exact by assumption.
  do 2 eexists. split; [reflexivity|]. split; [reflexivity|].
  assert (Hz : forall e c, scaled (mkDecimal (Some 0) e) c = 0) by reflexivity.
  destruct (sig y =? 0) eqn:Ey; destruct (sig x =? 0) eqn:Ex;
    try apply Z.eqb_eq in Ey; try apply Z.eqb_eq in Ex;
    rewrite ?Ey, ?Ex, ?Z.mul_0_l, ?Z.mul_0_r;
    split;
    try (unfold num_eq, num_compare; rewrite !Hz; reflexivity).
  - unfold num_eq, num_compare. apply Z.compare_refl.
  - unfold num_eq, num_compare.
    rewrite (Z.add_comm (exponent y)), (Z.mul_comm (sig y)).
    apply Z.compare_refl.
Qed.

(** [Mul_multiplies_values] at [1.5 * 2e3]. *)
Lemma Mul_multiplies_values_witness :
  GoInt.in_int (-1 + 3)
  /\ exists r r',
       Mul (mkDecimal (Some 15) (-1)) (mkDecimal (Some 2) 3)
         = Some (r, mkDecimal (Some 2) 3)
       /\ Mul (mkDecimal (Some 2) 3) (mkDecimal (Some 15) (-1))
         = Some (r', mkDecimal (Some 15) (-1))
       /\ num_eq r (mkDecimal (Some (15 * 2)) (-1 + 3))
       /\ num_eq r r'.
Proof.
  assert (H : GoInt.in_int (-1 + 3)) by (split; discriminate).
  split; [exact H|].
  exact (Mul_multiplies_values (mkDecimal (Some 15) (-1)) (mkDecimal (Some 2) 3) H).
Defined.

(** X10.  [Neg] and [Abs] never panic and keep the exponent; negating
    twice gives back the (initialised) decimal, [Abs] is idempotent and
    undoes a negation, and the significand [Abs] leaves is the absolute
    value of the original one. *)
Theorem Neg_Abs_compose (d : Decimal) :
  exists n a,
    Neg d = Some n /\ Abs d = Some a
    /\ Neg n = Some (ensureInitialized d)
    /\ Abs n = Some a /\ Abs a = Some a
    /\ sig n = - sig d /\ sig a = Z.abs (sig d)
    /\ exponent n = exponent d /\ exponent a = exponent d.
Proof.
  unfold Neg, Abs. rewrite deref_ensureInitialized, exponent_ensureInitialized.
  do 2 eexists. split; [reflexivity|]. split; [reflexivity|].
  unfold ensureInitialized, deref, BigInt.Abs. cbn [integer exponent sig].
  rewrite Z.opp_involutive, Z.abs_opp, Z.abs_idemp.
  repeat split. destruct d as [[i|] e]; reflexivity.
Qed.

(** ** Division *)

(** X11.  [Quo] and [Div] never panic, whatever the operands and the
    ceiling, and they leave their argument as it was (only initialised):
    unlike [Cmp], [Add] and [Sub], division does not rescale [y]. *)
Theorem Quo_keeps_argument (MaxDecimalDigits : Z) (x y : Decimal) :
  exists r,
    Quo MaxDecimalDigits x y = Some (r, ensureInitialized y)
    /\ Div MaxDecimalDigits x y = Some (r, ensureInitialized y).
Proof.
  unfold Div. destruct (Quo_total MaxDecimalDigits x y) as ([r y'] & H).
  exists r. rewrite H. enough (y' = ensureInitialized y) by (subst; auto).
  revert H. unfold Quo. rewrite !deref_ensureInitialized.
  destruct (BigInt.Sign (sig y) =? 0); [intros H; inversion H; reflexivity|].
  destruct (BigInt.QuoRem (sig x) (sig y)) as [[z r0]|]; [|discriminate].
  destruct (BigInt.Sign r0 =? 0); [intros H; inversion H; reflexivity|].
  destruct (quo_digits _ _ _ _ _) as [[[r1 buf] exp]|]; [|discriminate].
  destruct (SetString _ _) as [[x' ok]|]; [|discriminate].
  intros H; inversion H; reflexivity.
Qed.

(** X12.  An inexact division truncates toward zero: with the ceiling
    fitting an [int] and the exponent difference in range and not below
    minus the ceiling, [x.Quo(y)] returns the quotient of the values cut
    after [k] more digits, not rounded; its sign is that of the exact
    quotient (or it is zero), and either it is the exact quotient or it has
    exactly [MaxDecimalDigits] fractional digits. *)
Theorem Quo_truncates_toward_zero (MaxDecimalDigits : Z) (x y : Decimal) :
  0 <= MaxDecimalDigits <= GoInt.max_int ->
  sig y <> 0 -> Z.rem (sig x) (sig y) <> 0 ->
  GoInt.in_int (exponent x - exponent y) ->
  - MaxDecimalDigits <= exponent x - exponent y ->
  exists r k,
    Quo MaxDecimalDigits x y = Some (r, ensureInitialized y)
    /\ 0 <= k /\ exponent r = exponent x - exponent y - k
    /\ Z.abs (sig r) * Z.abs (sig y) <= Z.abs (sig x) * 10 ^ k
       < (Z.abs (sig r) + 1) * Z.abs (sig y)
    /\ 0 <= sig r * (sig x * sig y)
    /\ (Z.abs (sig r) * Z.abs (sig y) = Z.abs (sig x) * 10 ^ k
        \/ exponent r = - MaxDecimalDigits).
Proof.
  intros HM Hy Hrem HE HE'.
  destruct (Quo_inexact_spec MaxDecimalDigits x y HM Hy Hrem HE HE')
    as (ds & _ & Hk & HQ & Hstop & _).
  set (k := GoInt.len ds) in *.
  set (A := Z.abs (sig x) * 10 ^ k) in *. set (B := Z.abs (sig y)) in *.
  assert (HB : 0 < B) by (unfold B; lia).
  assert (HA : 0 <= A).
  { unfold A. apply Z.mul_nonneg_nonneg; [lia|apply Z.pow_nonneg; lia]. }
  assert (Hq : 0 <= A / B) by (apply Z.div_pos; lia).
  assert (Habs : Z.abs (quo_sign (sig x) (sig y) * (A / B)) = A / B).
  { unfold quo_sign. destruct (_ =? -1); lia. }
  eexists. exists k. split; [exact HQ|]. split; [lia|]. split; [reflexivity|].
  cbn [sig integer exponent]. rewrite Habs.
  pose proof (Z.div_mod A B ltac:(lia)) as Hdm.
  pose proof (Z.mod_pos_bound A B HB) as Hmb.
  split; [nia|]. split.
  - assert (Hx : sig x <> 0).
    { intros H. apply Hrem. rewrite H. apply Z.rem_0_l. exact Hy. }
    unfold quo_sign, BigInt.Sign.
    destruct (Z.sgn (sig x) * Z.sgn (sig y) =? -1) eqn:E.
    + apply Z.eqb_eq in E. nia.
    + apply Z.eqb_neq in E.
      assert (0 <= sig x * sig y) by nia. nia.
  - destruct Hstop as [H|H]; [left|right; exact H].
    rewrite H in Hdm. nia.
Qed.

(** [Quo_truncates_toward_zero] at [2 / 3] with the default ceiling. *)
Lemma Quo_truncates_toward_zero_witness :
  0 <= 200 <= GoInt.max_int
  /\ sig (mkDecimal (Some 3) 0) <> 0
  /\ Z.rem (sig (mkDecimal (Some 2) 0)) (sig (mkDecimal (Some 3) 0)) <> 0
  /\ GoInt.in_int (0 - 0)
  /\ - 200 <= 0 - 0
  /\ exists r k,
       Quo 200 (mkDecimal (Some 2) 0) (mkDecimal (Some 3) 0)
         = Some (r, mkDecimal (Some 3) 0)
       /\ 0 <= k /\ exponent r = 0 - 0 - k
       /\ Z.abs (sig r) * 3 <= 2 * 10 ^ k < (Z.abs (sig r) + 1) * 3
       /\ 0 <= sig r * (2 * 3)
       /\ (Z.abs (sig r) * 3 = 2 * 10 ^ k \/ exponent r = - 200).
Proof.
  assert (H0 : 0 <= 200 <= GoInt.max_int) by (split; discriminate).
  assert (H1 : sig (mkDecimal (Some 3) 0) <> 0) by discriminate.
  assert (H2 : Z.rem (sig (mkDecimal (Some 2) 0)) (sig (mkDecimal (Some 3) 0)) <> 0)
    by discriminate.
  assert (H3 : GoInt.in_int (0 - 0)) by (split; discriminate).
  assert (H4 : - 200 <= 0 - 0) by discriminate.
  repeat (split; [assumption|]).
  exact (Quo_truncates_toward_zero 200 (mkDecimal (Some 2) 0)
           (mkDecimal (Some 3) 0) H0 H1 H2 H3 H4).
Defined.

(** ** Rounding on the significand *)

Lemma IsZero_initialized d :
  IsZero (ensureInitialized d)
  = Some (BigInt.Sign (sig d) =? 0, ensureInitialized d).
Proof.
  unfold IsZero. rewrite ensureInitialized_idem, deref_ensureInitialized.
  reflexivity.
Qed.

Lemma Exp_pow y : 0 <= y -> BigInt.Exp 10 y = 10 ^ y.
Proof.
  intros H. unfold BigInt.Exp. destruct (y <=? 0) eqn:E; [|reflexivity].
  apply Z.leb_le in E. replace y with 0 by lia. reflexivity.
Qed.

Lemma Exp_pos y : 0 < BigInt.Exp 10 y.
Proof.
  unfold BigInt.Exp. destruct (y <=? 0) eqn:E; [lia|].
  apply Z.leb_gt in E. apply Z.pow_pos_nonneg; lia.
Qed.

Lemma BigInt_Quo_Exp i y : BigInt.Quo i (BigInt.Exp 10 y) = Some (Z.quot i (BigInt.Exp 10 y)).
Proof.
  unfold BigInt.Quo. pose proof (Exp_pos y).
  destruct (BigInt.Exp 10 y =? 0) eqn:E; [apply Z.eqb_eq in E; lia|reflexivity].
Qed.

Lemma rounding_needless_true d p :
  0 <= p <= GoInt.max_int ->
  sig d = 0 \/ - p <= exponent d ->
  GoInt.in_int (exponent d) ->
  rounding_needless d p = true.
Proof.
  intros Hp H He. unfold rounding_needless, GoInt.of_uint, BigInt.Sign.
  rewrite (wrap_id p)
    by (unfold GoInt.in_int, GoInt.min_int, GoInt.max_int in *; lia).
  destruct H as [H|H].
  - rewrite H. reflexivity.
  - destruct (Z.sgn (sig d) =? 0); [reflexivity|].
    destruct (exponent d >? 0) eqn:E; [reflexivity|].
    rewrite Z.gtb_ltb in E. apply Z.ltb_ge in E. cbn [orb].
    apply Z.leb_le. rewrite neg_exact; [lia|exact He|].
    unfold GoInt.min_int, GoInt.max_int in *. lia.
Qed.

Lemma rounding_needless_false d p :
  0 <= p ->
  sig d <> 0 -> GoInt.min_int < exponent d -> exponent d < - p ->
  rounding_needless d p = false
  /\ GoInt.of_uint p = p /\ GoInt.in_int (p + 1)
  /\ GoInt.mul p (-1) = - p.
Proof.
  intros Hp Hs He He'.
  assert (Hi : GoInt.in_int p /\ GoInt.in_int (p + 1) /\ GoInt.in_int (exponent d)).
  { unfold GoInt.in_int, GoInt.min_int, GoInt.max_int in *. lia. }
  destruct Hi as (Hi1 & Hi2 & Hi3).
  unfold rounding_needless, GoInt.of_uint, BigInt.Sign.
  rewrite (wrap_id p) by exact Hi1.
  split; [|split; [reflexivity|split; [exact Hi2|]]].
  - destruct (Z.sgn (sig d) =? 0) eqn:E.
    { apply Z.eqb_eq in E. rewrite Z.sgn_null_iff in E. contradiction. }
    destruct (exponent d >? 0) eqn:E'; [apply Z.gtb_lt in E'; lia|].
    cbn [orb]. apply Z.leb_gt. rewrite neg_exact; [lia|exact Hi3|].
    unfold GoInt.min_int in *. lia.
  - apply neg_exact; [exact Hi1|]. unfold GoInt.min_int. lia.
Qed.

Lemma RoundToZero_unfold d p :
  RoundToZero d p
  = if rounding_needless d p then Some (ensureInitialized d)
    else Some (mkDecimal
                 (Some (Z.quot (sig d)
                          (BigInt.Exp 10 (Z.abs (exponent d) - GoInt.of_uint p))))
                 (GoInt.mul (GoInt.of_uint p) (-1))).
Proof.
  unfold RoundToZero, rounding_needless.
  rewrite IsZero_initialized, exponent_ensureInitialized.
  destruct (_ || _ || _); [reflexivity|].
  rewrite deref_ensureInitialized. unfold BigInt.Abs.
  rewrite BigInt_Quo_Exp. reflexivity.
Qed.

Lemma RoundAwayFromZero_unfold d p :
  RoundAwayFromZero d p
  = if rounding_needless d p then Some (ensureInitialized d)
    else
      let P := BigInt.Exp 10 (Z.abs (exponent d) - GoInt.of_uint p) in
      Some (mkDecimal
              (Some (if Z.rem (sig d) P =? 0 then Z.quot (sig d) P
                     else Z.quot (sig d) P + Z.sgn (sig d)))
              (GoInt.mul (GoInt.of_uint p) (-1))).
Proof.
  unfold RoundAwayFromZero, rounding_needless.
  rewrite IsZero_initialized, exponent_ensureInitialized.
  destruct (_ || _ || _); [reflexivity|].
  rewrite deref_ensureInitialized. unfold BigInt.Abs, BigInt.QuoRem. cbv zeta.
  pose proof (Exp_pos (Z.abs (exponent d) - GoInt.of_uint p)) as HP.
  destruct (BigInt.Exp 10 _ =? 0) eqn:E; [apply Z.eqb_eq in E; lia|].
  unfold BigInt.Sign.
  assert (Hs : GoInt.mul 1 (Z.sgn (sig d)) = Z.sgn (sig d)).
  { unfold GoInt.mul. rewrite Z.mul_1_l. apply wrap_id.
    unfold GoInt.in_int, GoInt.min_int, GoInt.max_int.
    pose proof (Z.sgn_spec (sig d)). lia. }
  rewrite Hs.
  destruct (Z.sgn (Z.rem (sig d) _) =? 0) eqn:Er.
  - apply Z.eqb_eq in Er. rewrite Z.sgn_null_iff in Er. rewrite Er. reflexivity.
  - apply Z.eqb_neq in Er. rewrite Z.sgn_null_iff in Er.
    destruct (Z.rem (sig d) _ =? 0) eqn:Er'; [apply Z.eqb_eq in Er'; contradiction|].
    reflexivity.
Qed.

Lemma RoundToNearestAway_unfold d p :
  RoundToNearestAway d p
  = if rounding_needless d p then Some (ensureInitialized d)
    else
      let i1 := Z.quot (sig d)
                  (BigInt.Exp 10 (Z.abs (exponent d)
                                  - GoInt.add (GoInt.of_uint p) 1)) in
      Some (mkDecimal
              (Some (Z.quot (i1 + (if Z.sgn i1 =? -1 then - 5 else 5)) 10))
              (GoInt.mul (GoInt.of_uint p) (-1))).
Proof.
  unfold RoundToNearestAway, rounding_needless.
  rewrite IsZero_initialized, exponent_ensureInitialized.
  destruct (_ || _ || _); [reflexivity|].
  rewrite deref_ensureInitialized. unfold BigInt.Abs.
  rewrite BigInt_Quo_Exp. reflexivity.
Qed.

Lemma rounding_needless_initialized d p :
  rounding_needless (ensureInitialized d) p = rounding_needless d p.
Proof.
  unfold rounding_needless. rewrite exponent_ensureInitialized.
  replace (sig (ensureInitialized d)) with (sig d); [reflexivity|].
  destruct d as [[i|] e]; reflexivity.
Qed.

Lemma rounding_needless_rounded v p :
  0 <= p <= GoInt.max_int ->
  rounding_needless (mkDecimal v (GoInt.mul (GoInt.of_uint p) (-1))) p = true.
Proof.
  intros Hp.
  assert (Hi : GoInt.in_int p)
    by (unfold GoInt.in_int, GoInt.min_int, GoInt.max_int in *; lia).
  assert (Hn : GoInt.mul (GoInt.of_uint p) (-1) = - p).
  { unfold GoInt.of_uint. rewrite (wrap_id p) by exact Hi.
    apply neg_exact; [exact Hi|]. unfold GoInt.min_int. lia. }
  rewrite Hn. apply rounding_needless_true; [exact Hp|right; cbn; lia|].
  cbn [exponent]. unfold GoInt.in_int, GoInt.min_int, GoInt.max_int in *. lia.
Qed.

Lemma RoundToNearestEven_needless d p :
  rounding_needless d p = true ->
  RoundToNearestEven d p = Some (ensureInitialized d).
Proof.
  intros H. unfold RoundToNearestEven.
  rewrite IsZero_initialized, exponent_ensureInitialized.
  unfold rounding_needless in H. rewrite H. reflexivity.
Qed.

(** X13.  For a precision below 2^63, [RoundToZero], [RoundAwayFromZero]
    and [RoundToNearestAway] never panic and are idempotent: rounding the
    result again at the same precision returns it unchanged.  A decimal
    that is zero or has no more than [precision] fractional digits is
    returned as it is. *)
Theorem integer_roundings_idempotent (d : Decimal) (p : Z) :
  0 <= p <= GoInt.max_int ->
  exists r1 r2 r3,
    RoundToZero d p = Some r1 /\ RoundToZero r1 p = Some r1
    /\ RoundAwayFromZero d p = Some r2 /\ RoundAwayFromZero r2 p = Some r2
    /\ RoundToNearestAway d p = Some r3 /\ RoundToNearestAway r3 p = Some r3
    /\ (GoInt.in_int (exponent d) -> sig d = 0 \/ - p <= exponent d ->
        r1 = ensureInitialized d /\ r2 = ensureInitialized d
        /\ r3 = ensureInitialized d).
Proof.
  intros Hp.
  rewrite RoundToZero_unfold, RoundAwayFromZero_unfold, RoundToNearestAway_unfold.
  cbv zeta.
  destruct (rounding_needless d p) eqn:E.
  - exists (ensureInitialized d), (ensureInitialized d), (ensureInitialized d).
    rewrite RoundToZero_unfold, RoundAwayFromZero_unfold,
      RoundToNearestAway_unfold, rounding_needless_initialized, E,
      ensureInitialized_idem.
    repeat split; reflexivity.
  - do 3 eexists.
    rewrite RoundToZero_unfold, RoundAwayFromZero_unfold,
      RoundToNearestAway_unfold, !rounding_needless_rounded by exact Hp.
    repeat (split; [reflexivity|]).
    intros He H. rewrite (rounding_needless_true d p Hp H He) in E. discriminate.
Qed.

(** [integer_roundings_idempotent] at [2.567] and precision 2, and at
    [2.5] and precision 2. *)
Lemma integer_roundings_idempotent_witness :
  0 <= 2 <= GoInt.max_int
  /\ RoundToZero (mkDecimal (Some 2567) (-3)) 2 = Some (mkDecimal (Some 256) (-2))
  /\ RoundToZero (mkDecimal (Some 256) (-2)) 2 = Some (mkDecimal (Some 256) (-2))
  /\ exists r1 r2 r3,
       RoundToZero (mkDecimal (Some 25) (-1)) 2 = Some r1
       /\ RoundToZero r1 2 = Some r1
       /\ RoundAwayFromZero (mkDecimal (Some 25) (-1)) 2 = Some r2
       /\ RoundAwayFromZero r2 2 = Some r2
       /\ RoundToNearestAway (mkDecimal (Some 25) (-1)) 2 = Some r3
       /\ RoundToNearestAway r3 2 = Some r3
       /\ (GoInt.in_int (-1) -> 25 = 0 \/ - 2 <= -1 ->
           r1 = mkDecimal (Some 25) (-1) /\ r2 = mkDecimal (Some 25) (-1)
           /\ r3 = mkDecimal (Some 25) (-1)).
Proof.
  assert (H : 0 <= 2 <= GoInt.max_int) by (split; discriminate).
  split; [exact H|]. split; [reflexivity|]. split; [reflexivity|].
  exact (integer_roundings_idempotent (mkDecimal (Some 25) (-1)) 2 H).
Defined.

(** X14.  Whenever [RoundToNearestEven] returns (it can panic), rounding
    its result again at the same precision, below 2^63, does not panic and
    returns the result unchanged up to initialisation of a nil
    significand. *)
Theorem RoundToNearestEven_idempotent (d r : Decimal) (p : Z) :
  0 <= p <= GoInt.max_int ->
  RoundToNearestEven d p = Some r ->
  RoundToNearestEven r p = Some (ensureInitialized r)
  /\ Round r p = Some (ensureInitialized r).
Proof.
  intros Hp H. unfold Round.
  enough (rounding_needless r p = true)
    by (rewrite RoundToNearestEven_needless by assumption; auto).
  destruct (rounding_needless d p) eqn:E.
  - rewrite (RoundToNearestEven_needless d p E) in H. inversion H.
    rewrite rounding_needless_initialized. exact E.
  - revert H. unfold RoundToNearestEven.
    rewrite IsZero_initialized, exponent_ensureInitialized.
    unfold rounding_needless in E. rewrite E.
    repeat match goal with
           | |- match ?e with _ => _ end = _ -> _ => destruct e; try discriminate
           | |- (let '(_, _) := ?e in _) = _ -> _ => destruct e
           end.
    all: intros H; inversion H; apply rounding_needless_rounded; exact Hp.
Qed.

(** [RoundToNearestEven_idempotent] at [2.675] and precision 2. *)
Lemma RoundToNearestEven_idempotent_witness :
  0 <= 2 <= GoInt.max_int
  /\ RoundToNearestEven (mkDecimal (Some 2675) (-3)) 2
     = Some (mkDecimal (Some 268) (-2))
  /\ RoundToNearestEven (mkDecimal (Some 268) (-2)) 2
     = Some (ensureInitialized (mkDecimal (Some 268) (-2)))
  /\ Round (mkDecimal (Some 268) (-2)) 2
     = Some (ensureInitialized (mkDecimal (Some 268) (-2))).
Proof.
  assert (H : 0 <= 2 <= GoInt.max_int) by (split; discriminate).
  split; [exact H|]. split; [reflexivity|].
  exact (RoundToNearestEven_idempotent (mkDecimal (Some 2675) (-3)) _ 2 H eq_refl).
Defined.

Lemma quot_rem_neg a b :
  0 <= a -> 0 < b ->
  Z.quot (- a) b = - (a / b) /\ Z.rem (- a) b = - (a mod b).
Proof.
  intros Ha Hb. rewrite Z.quot_opp_l, Z.rem_opp_l by lia.
  rewrite Z.quot_div_nonneg, Z.rem_mod_nonneg by lia. split; reflexivity.
Qed.

Lemma quot_rem_cases i b :
  0 < b ->
  (0 <= i /\ Z.quot i b = i / b /\ Z.rem i b = i mod b)
  \/ (i < 0 /\ Z.quot i b = - (- i / b) /\ Z.rem i b = - (- i mod b)).
Proof.
  intros Hb. destruct (Z_le_gt_dec 0 i) as [H|H].
  - left. rewrite Z.quot_div_nonneg, Z.rem_mod_nonneg by lia. auto.
  - right. split; [lia|].
    destruct (quot_rem_neg (- i) b ltac:(lia) Hb) as [H1 H2].
    rewrite Z.opp_involutive in H1, H2. auto.
Qed.

(** X15.  On a nonzero decimal with more than [precision] fractional
    digits, [RoundToZero] (and its aliases [Truncate] and [RoundDown])
    sets the exponent to [- precision] and cuts the discarded digits off:
    the result lies between zero and the value, less than one unit of the
    last retained place away from it. *)
Theorem RoundToZero_truncates (d : Decimal) (p : Z) :
  0 <= p -> sig d <> 0 ->
  GoInt.min_int < exponent d -> exponent d < - p ->
  exists r,
    RoundToZero d p = Some r /\ Truncate d p = Some r /\ RoundDown d p = Some r
    /\ exponent r = - p
    /\ Z.abs (sig r) * 10 ^ (- exponent d - p) <= Z.abs (sig d)
       < (Z.abs (sig r) + 1) * 10 ^ (- exponent d - p)
    /\ 0 <= sig r * sig d.
Proof.
  intros Hp Hs He He'. unfold Truncate, RoundDown.
  rewrite RoundToZero_unfold.
  destruct (rounding_needless_false d p Hp Hs He He') as (-> & -> & _ & ->).
  replace (Z.abs (exponent d) - p) with (- exponent d - p) by lia.
  rewrite Exp_pow by lia.
  set (P := 10 ^ (- exponent d - p)).
  assert (HP : 0 < P) by (apply Z.pow_pos_nonneg; lia).
  eexists. repeat (split; [reflexivity|]). cbn [sig integer].
  destruct (quot_rem_cases (sig d) P HP) as [(H0 & -> & _)|(H0 & -> & _)].
  - pose proof (Z.div_mod (sig d) P ltac:(lia)).
    pose proof (Z.mod_pos_bound (sig d) P HP).
    assert (0 <= sig d / P) by (apply Z.div_pos; lia).
    split; nia.
  - pose proof (Z.div_mod (- sig d) P ltac:(lia)).
    pose proof (Z.mod_pos_bound (- sig d) P HP).
    assert (0 <= - sig d / P) by (apply Z.div_pos; lia).
    split; nia.
Qed.

(** [RoundToZero_truncates] at [-2.567] and precision 2. *)
Lemma RoundToZero_truncates_witness :
  0 <= 2 /\ sig (mkDecimal (Some (-2567)) (-3)) <> 0
  /\ GoInt.min_int < -3 /\ -3 < - 2
  /\ exists r,
       RoundToZero (mkDecimal (Some (-2567)) (-3)) 2 = Some r
       /\ Truncate (mkDecimal (Some (-2567)) (-3)) 2 = Some r
       /\ RoundDown (mkDecimal (Some (-2567)) (-3)) 2 = Some r
       /\ exponent r = - 2
       /\ Z.abs (sig r) * 10 ^ (- -3 - 2) <= Z.abs (-2567)
          < (Z.abs (sig r) + 1) * 10 ^ (- -3 - 2)
       /\ 0 <= sig r * -2567.
Proof.
  assert (H0 : 0 <= 2) by discriminate.
  assert (H1 : sig (mkDecimal (Some (-2567)) (-3)) <> 0) by discriminate.
  assert (H2 : GoInt.min_int < -3) by reflexivity.
  assert (H3 : -3 < - 2) by reflexivity.
  repeat (split; [assumption|]).
  exact (RoundToZero_truncates (mkDecimal (Some (-2567)) (-3)) 2 H0 H1 H2 H3).
Defined.

(** X16.  On a nonzero decimal with more than [precision] fractional
    digits, [RoundAwayFromZero] (and its alias [RoundUp]) sets the exponent
    to [- precision] and moves to the next multiple of the unit away from
    zero unless the value already is one: the result is at least the value
    in magnitude, less than one unit beyond it, has the sign of the value
    and is never zero. *)
Theorem RoundAwayFromZero_rounds_outward (d : Decimal) (p : Z) :
  0 <= p -> sig d <> 0 ->
  GoInt.min_int < exponent d -> exponent d < - p ->
  exists r,
    RoundAwayFromZero d p = Some r /\ RoundUp d p = Some r
    /\ exponent r = - p
    /\ Z.abs (sig d) <= Z.abs (sig r) * 10 ^ (- exponent d - p)
       < Z.abs (sig d) + 10 ^ (- exponent d - p)
    /\ 0 < sig r * sig d.
Proof.
  intros Hp Hs He He'. unfold RoundUp.
  rewrite RoundAwayFromZero_unfold. cbv zeta.
  destruct (rounding_needless_false d p Hp Hs He He') as (-> & -> & _ & ->).
  replace (Z.abs (exponent d) - p) with (- exponent d - p) by lia.
  rewrite Exp_pow by lia.
  set (P := 10 ^ (- exponent d - p)).
  assert (HP : 0 < P) by (apply Z.pow_pos_nonneg; lia).
  eexists. repeat (split; [reflexivity|]). cbn [sig integer].
  destruct (quot_rem_cases (sig d) P HP) as [(H0 & -> & ->)|(H0 & -> & ->)].
  - pose proof (Z.div_mod (sig d) P ltac:(lia)).
    pose proof (Z.mod_pos_bound (sig d) P HP).
    assert (0 <= sig d / P) by (apply Z.div_pos; lia).
    rewrite (Z.sgn_pos (sig d)) by lia.
    destruct (sig d mod P =? 0) eqn:E;
      [apply Z.eqb_eq in E|apply Z.eqb_neq in E]; split; nia.
  - pose proof (Z.div_mod (- sig d) P ltac:(lia)).
    pose proof (Z.mod_pos_bound (- sig d) P HP).
    assert (0 <= - sig d / P) by (apply Z.div_pos; lia).
    rewrite (Z.sgn_neg (sig d)) by lia.
    destruct (- (- sig d mod P) =? 0) eqn:E;
      [apply Z.eqb_eq in E|apply Z.eqb_neq in E]; split; nia.
Qed.

(** [RoundAwayFromZero_rounds_outward] at [-2.561] and precision 2. *)
Lemma RoundAwayFromZero_rounds_outward_witness :
  0 <= 2 /\ sig (mkDecimal (Some (-2561)) (-3)) <> 0
  /\ GoInt.min_int < -3 /\ -3 < - 2
  /\ exists r,
       RoundAwayFromZero (mkDecimal (Some (-2561)) (-3)) 2 = Some r
       /\ RoundUp (mkDecimal (Some (-2561)) (-3)) 2 = Some r
       /\ exponent r = - 2
       /\ Z.abs (-2561) <= Z.abs (sig r) * 10 ^ (- -3 - 2)
          < Z.abs (-2561) + 10 ^ (- -3 - 2)
       /\ 0 < sig r * -2561.
Proof.
  assert (H0 : 0 <= 2) by discriminate.
  assert (H1 : sig (mkDecimal (Some (-2561)) (-3)) <> 0) by discriminate.
  assert (H2 : GoInt.min_int < -3) by reflexivity.
  assert (H3 : -3 < - 2) by reflexivity.
  repeat (split; [assumption|]).
  exact (RoundAwayFromZero_rounds_outward (mkDecimal (Some (-2561)) (-3)) 2 H0 H1 H2 H3).
Defined.

(** X17.  On a nonzero decimal with more than [precision] fractional
    digits, [RoundToNearestAway] sets the exponent to [- precision] and
    returns a nearest multiple of the unit: the result is at most half a
    unit away from the value, and when it is exactly half a unit away it is
    the one farther from zero. *)
Theorem RoundToNearestAway_rounds_to_nearest (d : Decimal) (p : Z) :
  0 <= p -> sig d <> 0 ->
  GoInt.min_int < exponent d -> exponent d < - p ->
  exists r,
    RoundToNearestAway d p = Some r
    /\ exponent r = - p
    /\ 2 * Z.abs (sig d - sig r * 10 ^ (- exponent d - p))
       <= 10 ^ (- exponent d - p)
    /\ (2 * Z.abs (sig d - sig r * 10 ^ (- exponent d - p))
        = 10 ^ (- exponent d - p) ->
        Z.abs (sig d) < Z.abs (sig r) * 10 ^ (- exponent d - p)).
Proof.
  intros Hp Hs He He'.
  rewrite RoundToNearestAway_unfold. cbv zeta.
  destruct (rounding_needless_false d p Hp Hs He He') as (-> & -> & Hp1 & ->).
  rewrite add_exact by exact Hp1.
  replace (Z.abs (exponent d) - (p + 1)) with (- exponent d - p - 1) by lia.
  rewrite Exp_pow by lia.
  set (q := 10 ^ (- exponent d - p - 1)).
  assert (Hq : 0 < q) by (apply Z.pow_pos_nonneg; lia).
  assert (HP : 10 ^ (- exponent d - p) = 10 * q).
  { unfold q. rewrite <- Z.pow_succ_r by lia. f_equal. lia. }
  rewrite HP.
  eexists. repeat (split; [reflexivity|]). cbn [sig integer].
  destruct (quot_rem_cases (sig d) q Hq) as [(H0 & -> & _)|(H0 & -> & _)].
  - set (a := sig d) in *.
    pose proof (Z.div_mod a q ltac:(lia)) as H1.
    pose proof (Z.mod_pos_bound a q Hq) as H2.
    assert (H3 : 0 <= a / q) by (apply Z.div_pos; lia).
    destruct (Z.sgn (a / q) =? -1) eqn:E.
    { apply Z.eqb_eq in E. pose proof (Z.sgn_spec (a / q)). lia. }
    rewrite Z.quot_div_nonneg by lia.
    pose proof (Z.div_mod (a / q + 5) 10 ltac:(lia)) as H4.
    pose proof (Z.mod_pos_bound (a / q + 5) 10 ltac:(lia)) as H5.
    assert (H6 : 0 <= (a / q + 5) / 10) by (apply Z.div_pos; lia).
    split; [nia|]. intros Ht. nia.
  - set (a := - sig d) in *.
    replace (sig d) with (- a) by (unfold a; lia).
    pose proof (Z.div_mod a q ltac:(lia)) as H1.
    pose proof (Z.mod_pos_bound a q Hq) as H2.
    assert (H3 : 0 <= a / q) by (apply Z.div_pos; lia).
    destruct (Z.sgn (- (a / q)) =? -1) eqn:E.
    + replace (- (a / q) + - 5) with (- (a / q + 5)) by lia.
      destruct (quot_rem_neg (a / q + 5) 10 ltac:(lia) ltac:(lia)) as [-> _].
      pose proof (Z.div_mod (a / q + 5) 10 ltac:(lia)) as H4.
      pose proof (Z.mod_pos_bound (a / q + 5) 10 ltac:(lia)) as H5.
      assert (H6 : 0 <= (a / q + 5) / 10) by (apply Z.div_pos; lia).
      split; [nia|]. intros Ht. nia.
    + apply Z.eqb_neq in E.
      assert (Hz : a / q = 0).
      { pose proof (Z.sgn_spec (- (a / q))). lia. }
      rewrite Hz. change (Z.quot (- 0 + 5) 10) with 0.
      rewrite Hz in H1. split; [nia|]. intros Ht. nia.
Qed.

(** [RoundToNearestAway_rounds_to_nearest] at [-2.5] and precision 0. *)
Lemma RoundToNearestAway_rounds_to_nearest_witness :
  0 <= 0 /\ sig (mkDecimal (Some (-25)) (-1)) <> 0
  /\ GoInt.min_int < -1 /\ -1 < - 0
  /\ exists r,
       RoundToNearestAway (mkDecimal (Some (-25)) (-1)) 0 = Some r
       /\ exponent r = - 0
       /\ 2 * Z.abs (-25 - sig r * 10 ^ (- -1 - 0)) <= 10 ^ (- -1 - 0)
       /\ (2 * Z.abs (-25 - sig r * 10 ^ (- -1 - 0)) = 10 ^ (- -1 - 0) ->
           Z.abs (-25) < Z.abs (sig r) * 10 ^ (- -1 - 0)).
Proof.
  assert (H0 : 0 <= 0) by discriminate.
  assert (H1 : sig (mkDecimal (Some (-25)) (-1)) <> 0) by discriminate.
  assert (H2 : GoInt.min_int < -1) by reflexivity.
  assert (H3 : -1 < - 0) by reflexivity.
  repeat (split; [assumption|]).
  exact (RoundToNearestAway_rounds_to_nearest (mkDecimal (Some (-25)) (-1)) 0 H0 H1 H2 H3).
Defined.

(** ** Printing *)

Lemma num_eq_sym x y : num_eq x y -> num_eq y x.
Proof.
  intros H. set (c := Z.min (exponent x) (exponent y)).
  apply (num_eq_at y x c); [lia|lia|].
  apply (num_eq_at x y c) in H; [|lia|lia]. auto.
Qed.


Lemma slice_prefix (s : Str.t) p :
  0 <= p <= GoInt.len s -> Str.slice s 0 p = Some (firstn (Z.to_nat p) s).
Proof.
  intros H. unfold Str.slice.
  destruct (0 <=? 0) eqn:E0; [|discriminate].
  destruct (0 <=? p) eqn:E1; [|apply Z.leb_gt in E1; lia].
  destruct (p <=? GoInt.len s) eqn:E2; [|apply Z.leb_gt in E2; lia].
  cbn [andb]. rewrite Z.sub_0_r. reflexivity.
Qed.

Lemma slice_suffix (s : Str.t) p :
  0 <= p <= GoInt.len s ->
  Str.slice s p (GoInt.len s) = Some (skipn (Z.to_nat p) s).
Proof.
  intros H. unfold Str.slice.
  destruct (0 <=? p) eqn:E1; [|apply Z.leb_gt in E1; lia].
  destruct (p <=? GoInt.len s) eqn:E2; [|apply Z.leb_gt in E2; lia].
  rewrite Z.leb_refl. cbn [andb]. f_equal.
  apply firstn_all2. rewrite length_skipn. unfold GoInt.len in *. lia.
Qed.

Lemma len_firstn (s : Str.t) p :
  0 <= p <= GoInt.len s -> GoInt.len (firstn (Z.to_nat p) s) = p.
Proof.
  intros H. unfold GoInt.len in *. rewrite length_firstn. lia.
Qed.

Lemma len_skipn (s : Str.t) p :
  0 <= p <= GoInt.len s -> GoInt.len (skipn (Z.to_nat p) s) = GoInt.len s - p.
Proof.
  intros H. unfold GoInt.len in *. rewrite length_skipn. lia.
Qed.

Lemma forallb_firstn_skipn (f : ascii -> bool) (s : Str.t) k :
  forallb f s = true ->
  forallb f (firstn k s) = true /\ forallb f (skipn k s) = true.
Proof.
  intros H. rewrite <- (firstn_skipn k s) in H.
  rewrite forallb_app in H. apply andb_prop in H. exact H.
Qed.

(** The sign text and the digits of a nonzero integer. *)
Lemma itoa_sign_digits i :
  i <> 0 ->
  Digits.itoa i = (if i <? 0 then $"-" else []) ++ Digits.of_Z (Z.abs i).
Proof.
  intros Hi. unfold Digits.itoa. destruct (i <? 0) eqn:E.
  - apply Z.ltb_lt in E. rewrite Z.abs_neq by lia. reflexivity.
  - apply Z.ltb_ge in E. rewrite Z.abs_eq by lia. reflexivity.
Qed.

Lemma HasPrefix_minus_digits ds :
  forallb Digits.is_digit ds = true -> Str.HasPrefix ds $"-" = false.
Proof.
  destruct ds as [|c ds]; [reflexivity|]. cbn [forallb]. intros H.
  apply andb_prop in H as [H _].
  destruct (digit_not_special c H) as (E & _).
  change ($"-") with ["-"%char]. cbn [Str.HasPrefix].
  rewrite Ascii.eqb_sym, E. reflexivity.
Qed.

Lemma signed_number_sign_digits (i : Z) ds :
  ds <> [] -> forallb Digits.is_digit ds = true ->
  signed_number ((if i <? 0 then $"-" else []) ++ ds)
  /\ Digits.atoi ((if i <? 0 then $"-" else []) ++ ds)
     = Some (Z.sgn i * Digits.value ds + (if i =? 0 then Digits.value ds else 0)).
Proof.
  intros Hne Hd. destruct (i <? 0) eqn:E.
  - apply Z.ltb_lt in E. split.
    + exists $"-", ds. repeat split; auto. right. eexists. split; reflexivity.
    + change ($"-" ++ ds) with ("-"%char :: ds).
      rewrite atoi_signed by (auto; reflexivity).
      change (Ascii.eqb "-" "-") with true. cbv iota.
      destruct (i =? 0) eqn:E0; [apply Z.eqb_eq in E0; lia|].
      rewrite Z.sgn_neg by lia. f_equal. lia.
  - apply Z.ltb_ge in E. split.
    + exists [], ds. repeat split; auto.
    + cbn [app]. rewrite atoi_digits by auto. f_equal.
      destruct (i =? 0) eqn:E0.
      * apply Z.eqb_eq in E0. subst i. cbn. lia.
      * apply Z.eqb_neq in E0. rewrite Z.sgn_pos by lia. lia.
Qed.



Lemma HasPrefix_minus_cons ds : Str.HasPrefix ("-"%char :: ds) $"-" = true.
Proof. destruct ds; reflexivity. Qed.








(** ** Conversion to [int64] *)



(** ** Digit strings and arithmetic *)

Lemma value_bound s :
  forallb Digits.is_digit s = true -> 0 <= Digits.value s < 10 ^ GoInt.len s.
Proof.
  induction s as [|c s IH] using rev_ind; intros H.
  - cbn. lia.
  - rewrite forallb_app in H. apply andb_prop in H as [H1 H2].
    cbn [forallb] in H2. rewrite andb_true_r in H2.
    pose proof (is_digit_val _ H2). specialize (IH H1).
    rewrite value_snoc, len_app. change (GoInt.len [c]) with 1.
    rewrite Z.pow_add_r, Z.pow_1_r by (try apply len_nonneg; lia). lia.
Qed.

Lemma value_firstn s j :
  forallb Digits.is_digit s = true -> 0 <= j <= GoInt.len s ->
  Digits.value (firstn (Z.to_nat j) s) = Digits.value s / 10 ^ (GoInt.len s - j).
Proof.
  intros Hd Hj.
  destruct (forallb_firstn_skipn Digits.is_digit s (Z.to_nat j) Hd) as [_ Hs].
  pose proof (value_bound _ Hs) as Hb. rewrite len_skipn in Hb by exact Hj.
  rewrite <- (firstn_skipn (Z.to_nat j) s) at 2.
  rewrite value_app, len_skipn by exact Hj.
  set (P := 10 ^ (GoInt.len s - j)) in *.
  assert (0 < P) by (apply Z.pow_pos_nonneg; lia).
  rewrite Z.div_add_l by lia. rewrite Z.div_small by lia. lia.
Qed.

Lemma firstn_succ_snoc (s : Str.t) j :
  0 <= j < GoInt.len s ->
  exists c,
    Str.slice s j (j + 1) = Some [c]
    /\ firstn (Z.to_nat (j + 1)) s = firstn (Z.to_nat j) s ++ [c].
Proof.
  intros Hj. unfold Str.slice.
  destruct (0 <=? j) eqn:E1; [|apply Z.leb_gt in E1; lia].
  destruct (j <=? j + 1) eqn:E2; [|apply Z.leb_gt in E2; lia].
  destruct (j + 1 <=? GoInt.len s) eqn:E3; [|apply Z.leb_gt in E3; lia].
  cbn [andb]. replace (j + 1 - j) with 1 by lia.
  assert (Hl : (Z.to_nat j < List.length s)%nat) by (unfold GoInt.len in Hj; lia).
  destruct (skipn (Z.to_nat j) s) as [|c r] eqn:Es.
  - exfalso. assert (Hx : List.length (skipn (Z.to_nat j) s) = O) by (rewrite Es; reflexivity).
    rewrite length_skipn in Hx. lia.
  - exists c. split; [reflexivity|].
    replace (Z.to_nat (j + 1)) with (S (Z.to_nat j)) by lia.
    rewrite <- (firstn_skipn (Z.to_nat j) s) at 1.
    rewrite Es.
    assert (Hfl : List.length (firstn (Z.to_nat j) s) = Z.to_nat j)
      by (rewrite length_firstn; lia).
    replace (S (Z.to_nat j)) with (List.length (firstn (Z.to_nat j) s) + 1)%nat by lia.
    rewrite firstn_app_2. reflexivity.
Qed.

(** The digit at index [j] of a digit string, as arithmetic on its value. *)
Lemma digit_at s j :
  forallb Digits.is_digit s = true -> 0 <= j < GoInt.len s ->
  exists c,
    Str.slice s j (j + 1) = Some [c]
    /\ Digits.is_digit c = true
    /\ Digits.digit_val c = (Digits.value s / 10 ^ (GoInt.len s - j - 1)) mod 10.
Proof.
  intros Hd Hj. destruct (firstn_succ_snoc s j Hj) as (c & Hc & Hf).
  exists c. split; [exact Hc|].
  destruct (forallb_firstn_skipn Digits.is_digit s (Z.to_nat (j + 1)) Hd) as [H1 _].
  rewrite Hf, forallb_app in H1. apply andb_prop in H1 as [_ H1].
  cbn [forallb] in H1. rewrite andb_true_r in H1. split; [exact H1|].
  pose proof (value_firstn s (j + 1) Hd ltac:(lia)) as V1.
  pose proof (value_firstn s j Hd ltac:(lia)) as V0.
  rewrite Hf, value_snoc, V0 in V1.
  replace (GoInt.len s - (j + 1)) with (GoInt.len s - j - 1) in V1 by lia.
  set (m := GoInt.len s - j - 1) in *.
  replace (GoInt.len s - j) with (m + 1) in V1 by (unfold m; lia).
  rewrite Z.pow_add_r, Z.pow_1_r in V1 by (unfold m; lia).
  assert (0 < 10 ^ m) by (apply Z.pow_pos_nonneg; unfold m; lia).
  rewrite <- Z.div_div in V1 by lia.
  pose proof (Z.div_mod (Digits.value s / 10 ^ m) 10 ltac:(lia)). lia.
Qed.

Lemma slice_app_l (a b : Str.t) lo hi :
  hi <= GoInt.len a -> Str.slice (a ++ b) lo hi = Str.slice a lo hi.
Proof.
  intros H. unfold Str.slice. rewrite len_app. pose proof (len_nonneg b).
  destruct (0 <=? lo) eqn:E1; [|reflexivity].
  destruct (lo <=? hi) eqn:E2; [|reflexivity].
  apply Z.leb_le in E1, E2.
  destruct (hi <=? GoInt.len a + GoInt.len b) eqn:E3; [|apply Z.leb_gt in E3; lia].
  destruct (hi <=? GoInt.len a) eqn:E4; [|apply Z.leb_gt in E4; lia].
  cbn [andb]. f_equal. unfold GoInt.len in *.
  rewrite skipn_app, firstn_app.
  replace (Z.to_nat (hi - lo) - List.length (skipn (Z.to_nat lo) a))%nat with O
    by (rewrite length_skipn; lia).
  cbn [firstn]. rewrite app_nil_r. reflexivity.
Qed.

Lemma slice_app_r (a b : Str.t) lo hi :
  0 <= lo ->
  Str.slice (a ++ b) (GoInt.len a + lo) (GoInt.len a + hi) = Str.slice b lo hi.
Proof.
  intros H. unfold Str.slice. rewrite len_app. pose proof (len_nonneg a).
  destruct (0 <=? GoInt.len a + lo) eqn:E0; [|apply Z.leb_gt in E0; lia].
  destruct (0 <=? lo) eqn:E1; [|apply Z.leb_gt in E1; lia].
  assert (E2 : (GoInt.len a + lo <=? GoInt.len a + hi) = (lo <=? hi)).
  { destruct (lo <=? hi) eqn:E; [apply Z.leb_le in E; apply Z.leb_le; lia
                                 |apply Z.leb_gt in E; apply Z.leb_gt; lia]. }
  assert (E3 : (GoInt.len a + hi <=? GoInt.len a + GoInt.len b) = (hi <=? GoInt.len b)).
  { destruct (hi <=? GoInt.len b) eqn:E; [apply Z.leb_le in E; apply Z.leb_le; lia
                                          |apply Z.leb_gt in E; apply Z.leb_gt; lia]. }
  rewrite E2, E3. destruct (lo <=? hi) eqn:E4; [|reflexivity].
  destruct (hi <=? GoInt.len b); [|reflexivity]. cbn [andb]. f_equal.
  replace (GoInt.len a + hi - (GoInt.len a + lo)) with (hi - lo) by lia.
  f_equal. unfold GoInt.len in *.
  rewrite skipn_app. rewrite skipn_all2 by lia. cbn [app].
  f_equal. lia.
Qed.

Lemma digit_char_of c :
  Digits.is_digit c = true -> c = Digits.digit_char (Digits.digit_val c).
Proof.
  destruct c as [[] [] [] [] [] [] [] []]; intros H;
    solve [discriminate H | reflexivity].
Qed.

(** The three tests [RoundToNearestEven] makes on one-character strings. *)
Lemma one_of_digit_tests c :
  Digits.is_digit c = true ->
  one_of [c] ["6"; "7"; "8"; "9"]%string = (6 <=? Digits.digit_val c)
  /\ one_of [c] ["5"]%string = (Digits.digit_val c =? 5)
  /\ one_of [c] ["1"; "3"; "5"; "7"; "9"]%string = Z.odd (Digits.digit_val c).
Proof.
  destruct c as [[] [] [] [] [] [] [] []]; intros H;
    solve [discriminate H | repeat split; reflexivity].
Qed.

(** Digit strings have no leading zero. *)
Lemma digits_aux_lower fuel : forall n acc,
  0 < n < 2 ^ Z.of_nat fuel ->
  exists ds,
    Digits.digits_aux fuel n acc = ds ++ acc
    /\ ds <> []
    /\ 10 ^ (GoInt.len ds - 1) <= n.
Proof.
  induction fuel as [|f IH]; intros n acc Hn.
  - change (2 ^ Z.of_nat 0) with 1 in Hn. lia.
  - cbn [Digits.digits_aux]. destruct (n <? 10) eqn:E.
    + exists [Digits.digit_char (n mod 10)]. split; [reflexivity|].
      split; [discriminate|].
      change (GoInt.len [Digits.digit_char (n mod 10)] - 1) with 0. cbn. lia.
    + apply Z.ltb_ge in E.
      destruct (IH (n / 10) (Digits.digit_char (n mod 10) :: acc))
        as (ds & E1 & Hne & E2).
      { split; [apply Z.div_str_pos; lia|].
        apply Z.div_lt_upper_bound; [lia|].
        rewrite Nat2Z.inj_succ, Z.pow_succ_r in Hn by lia. lia. }
      exists (ds ++ [Digits.digit_char (n mod 10)]).
      split; [rewrite E1, <- app_assoc; reflexivity|].
      split; [intros H; apply app_eq_nil in H as [_ H]; discriminate|].
      rewrite len_app. change (GoInt.len [Digits.digit_char (n mod 10)]) with 1.
      replace (GoInt.len ds + 1 - 1) with (GoInt.len ds - 1 + 1) by lia.
      assert (0 <= GoInt.len ds - 1).
      { destruct ds as [|c r]; [contradiction|].
        unfold GoInt.len. cbn [List.length]. lia. }
      rewrite Z.pow_add_r, Z.pow_1_r by lia.
      pose proof (Z.div_mod n 10 ltac:(lia)).
      pose proof (Z.mod_pos_bound n 10 ltac:(lia)). lia.
Qed.

Lemma of_Z_length n :
  0 < n ->
  10 ^ (GoInt.len (Digits.of_Z n) - 1) <= n < 10 ^ GoInt.len (Digits.of_Z n).
Proof.
  intros Hn. destruct (of_Z_spec n ltac:(lia)) as (Hd & Hv & _ & _).
  pose proof (value_bound _ Hd) as Hb. rewrite Hv in Hb.
  split; [|lia]. unfold Digits.of_Z.
  destruct (digits_aux_lower (S (Z.to_nat (Z.log2 n))) n []) as (ds & E1 & _ & E2).
  { split; [lia|]. rewrite Nat2Z.inj_succ, Z2Nat.id by apply Z.log2_nonneg.
    apply Z.log2_spec. lia. }
  rewrite app_nil_r in E1. rewrite E1. exact E2.
Qed.

(** ** Rounding on the digit string *)

Lemma strip_sign_itoa i :
  i <> 0 ->
  (if Str.HasPrefix (Digits.itoa i) $"-"
   then s <- Str.slice (Digits.itoa i) 1 (GoInt.len (Digits.itoa i)) ;;
        Some ($"-", s)
   else Some ([], Digits.itoa i))
  = Some (if i <? 0 then $"-" else [], Digits.of_Z (Z.abs i)).
Proof.
  intros Hi. rewrite (itoa_sign_digits i Hi).
  destruct (of_Z_spec (Z.abs i) ltac:(lia)) as (Hd & _ & _ & _).
  destruct (i <? 0) eqn:Ei.
  - change ($"-" ++ Digits.of_Z (Z.abs i)) with ("-"%char :: Digits.of_Z (Z.abs i)).
    rewrite HasPrefix_minus_cons.
    rewrite (slice_suffix ("-"%char :: Digits.of_Z (Z.abs i)) 1)
      by (unfold GoInt.len; cbn [List.length]; lia).
    reflexivity.
  - cbn [app]. rewrite HasPrefix_minus_digits by exact Hd. reflexivity.
Qed.

Lemma odd_mod_10 q : Z.odd (q mod 10) = Z.odd q.
Proof.
  rewrite (Z.div_mod q 10) at 2 by lia.
  rewrite Z.add_comm, Z.odd_add_mul_even; [reflexivity|].
  exists 5. reflexivity.
Qed.

Lemma atoi_sign_only (i : Z) : Digits.atoi (if i <? 0 then $"-" else []) = None.
Proof. destruct (i <? 0); reflexivity. Qed.

(** What [RoundToNearestEven] computes, in arithmetic on the significand,
    when there is something to round: [q] is the truncated significand,
    [dg] the first discarded digit; with no digit left to keep (precision 0
    and as many digits as fractional places) the significand becomes nil,
    or the method panics when it would round up. *)
Lemma RoundToNearestEven_arith (d : Decimal) (p : Z) :
  0 <= p -> sig d <> 0 ->
  GoInt.min_int < exponent d -> exponent d < - p ->
  GoInt.len (BigInt.String (sig d)) <= GoInt.max_int ->
  let a := Z.abs (sig d) in
  let D := - exponent d - p in
  let q := a / 10 ^ D in
  let dg := (a / 10 ^ (D - 1)) mod 10 in
  let up := (6 <=? dg) || ((dg =? 5) && ((1 <? D) || Z.odd q)) in
  RoundToNearestEven d p
  = if (p =? 0) && (GoInt.len (Digits.of_Z a) =? - exponent d)
    then (if 5 <=? dg then None else Some (mkDecimal None 0))
    else Some (mkDecimal
                 (Some (Z.sgn (sig d) * q + (if up then Z.sgn (sig d) else 0)))
                 (- p)).
Proof.
  intros Hp Hs He He' Hl a D q dg up.
  destruct (rounding_needless_false d p Hp Hs He He') as (Hg & Hpu & Hp1 & Hpn).
  unfold RoundToNearestEven.
  rewrite IsZero_initialized, exponent_ensureInitialized.
  unfold rounding_needless in Hg. rewrite Hg, Hpu, Hpn.
  rewrite deref_ensureInitialized.
  set (i := sig d) in *. set (e := exponent d) in *.
  unfold BigInt.String in *. rewrite (strip_sign_itoa i Hs).
  rewrite (itoa_sign_digits i Hs) in Hl.
  destruct (of_Z_spec a ltac:(unfold a; lia)) as (Hd & Hv & Hne & _).
  fold a in Hl |- *.
  set (ds := Digits.of_Z a) in *. set (buf := if i <? 0 then $"-" else []) in *.
  set (n := GoInt.len ds) in *.
  assert (Hn : 0 < n <= GoInt.max_int).
  { rewrite len_app in Hl. pose proof (len_nonneg buf). fold n in Hl.
    split; [|lia]. unfold n. destruct ds; [contradiction|].
    unfold GoInt.len. cbn [List.length]. lia. }
  assert (Hin : forall z, GoInt.min_int <= z <= GoInt.max_int -> GoInt.in_int z)
    by (intros z Hz; exact Hz).
  assert (Hme : GoInt.mul e (-1) = - e).
  { apply neg_exact; [apply Hin|]; unfold GoInt.min_int, GoInt.max_int in *; lia. }
  rewrite Hme.
  (* the padded digit string *)
  assert (Hpad : exists s,
             (if n <? - e
              then pad <- Str.Repeat "0" (GoInt.add (GoInt.sub (- e) n) 1) ;;
                   Some (pad ++ ds)
              else Some ds) = Some s
             /\ forallb Digits.is_digit s = true
             /\ Digits.value s = a
             /\ - e <= GoInt.len s
             /\ (GoInt.len s = - e <-> n = - e)
             /\ (GoInt.len s = n \/ GoInt.len s = - e + 1)).
  { destruct (n <? - e) eqn:En.
    - apply Z.ltb_lt in En.
      rewrite sub_exact, add_exact
        by (apply Hin; unfold GoInt.min_int, GoInt.max_int in *; lia).
      unfold Str.Repeat.
      destruct (- e - n + 1 <? 0) eqn:Er; [apply Z.ltb_lt in Er; lia|].
      eexists. split; [reflexivity|].
      split; [rewrite forallb_app, forallb_repeat_zero, Hd; reflexivity|].
      split; [rewrite value_app, value_repeat_zero; lia|].
      rewrite len_app, len_repeat, Z2Nat.id by lia. fold n. lia.
    - apply Z.ltb_ge in En. exists ds. fold n. repeat split; auto; lia. }
  destruct Hpad as (s & -> & Hds & Hvs & HL & HLn & HLs).
  set (L := GoInt.len s) in *.
  assert (HLm : L <= GoInt.max_int + 1)
    by (unfold GoInt.min_int, GoInt.max_int in *; lia).
  rewrite add_exact by (apply Hin; unfold GoInt.min_int, GoInt.max_int in *; lia).
  rewrite (slice_prefix s (L + e)) by (fold L; lia). cbv beta iota.
  set (part1 := firstn (Z.to_nat (L + e)) s).
  assert (Hl1 : GoInt.len part1 = L + e) by (apply len_firstn; fold L; lia).
  pose proof (slice_suffix s (L + e) ltac:(fold L; lia)) as Hsuf. fold L in Hsuf.
  rewrite Hl1, Hsuf. cbv beta iota. clear Hsuf.
  set (part2 := skipn (Z.to_nat (L + e)) s).
  assert (Hl2 : GoInt.len part2 = - e).
  { unfold part2. rewrite len_skipn by (fold L; lia). fold L. lia. }
  assert (Hs12 : s = part1 ++ part2) by (symmetry; apply firstn_skipn).
  rewrite add_exact by exact Hp1.
  (* the first discarded digit *)
  assert (Hdig : exists c,
             Str.slice part2 p (p + 1) = Some [c]
             /\ Digits.is_digit c = true /\ Digits.digit_val c = dg).
  { destruct (digit_at s (L + e + p) Hds ltac:(fold L; lia)) as (c & Hc1 & Hc2 & Hc3).
    exists c. split; [|split; [exact Hc2|]].
    - rewrite <- (slice_app_r part1 part2 p (p + 1)) by lia.
      rewrite <- Hs12, Hl1. replace (L + e + (p + 1)) with (L + e + p + 1) by lia.
      exact Hc1.
    - rewrite Hc3, Hvs. fold L. unfold dg, D. do 3 f_equal. lia. }
  destruct Hdig as (c & -> & Hc & Hcv).
  destruct (one_of_digit_tests c Hc) as (T1 & T2 & _). rewrite T1, T2, Hcv.
  rewrite Hl2.
  assert (Hgt : (- e >? p + 1) = (1 <? D)).
  { unfold D. rewrite Z.gtb_ltb.
    destruct (1 <? - e - p) eqn:E; [apply Z.ltb_lt in E; apply Z.ltb_lt; lia
                                   |apply Z.ltb_ge in E; apply Z.ltb_ge; lia]. }
  rewrite Hgt.
  rewrite (slice_prefix part2 p) by lia.
  set (front := firstn (Z.to_nat p) part2).
  set (w := part1 ++ front).
  assert (Hw : w = firstn (Z.to_nat (L + e + p)) s).
  { unfold w, front. rewrite Hs12 at 1.
    replace (Z.to_nat (L + e + p))
      with (List.length part1 + Z.to_nat p)%nat
      by (unfold GoInt.len in Hl1; lia).
    rewrite firstn_app_2. reflexivity. }
  assert (Hwv : Digits.value w = q).
  { rewrite Hw, value_firstn by (try exact Hds; fold L; lia).
    rewrite Hvs. fold L. unfold q, D. do 2 f_equal. lia. }
  assert (Hwd : forallb Digits.is_digit w = true).
  { rewrite Hw.
    destruct (forallb_firstn_skipn Digits.is_digit s (Z.to_nat (L + e + p)) Hds)
      as [H _]. exact H. }
  assert (Hwl : GoInt.len w = L + e + p).
  { rewrite Hw. apply len_firstn. fold L. lia. }
  rewrite sub_exact by (apply Hin; unfold GoInt.min_int, GoInt.max_int in *; lia).
  rewrite (sub_exact p 1) by (apply Hin; unfold GoInt.min_int, GoInt.max_int in *; lia).
  unfold BigInt.SetString, BigInt.Sign.
  destruct ((p =? 0) && (n =? - e)) eqn:EW.
  - (* no digit is kept *)
    apply andb_prop in EW as [Ep0 Ene].
    apply Z.eqb_eq in Ep0, Ene.
    assert (HL0 : L + e = 0) by (apply HLn in Ene; lia).
    assert (Hw0 : w = []).
    { destruct w; [reflexivity|]. unfold GoInt.len in Hwl. cbn [List.length] in Hwl. lia. }
    rewrite Hw0, app_nil_r. unfold buf. rewrite atoi_sign_only.
    rewrite Ep0. change (0 =? 0) with true. cbv iota.
    rewrite HL0. change (Str.slice part1 (0 - 1) 0) with (@None (list ascii)).
    destruct (6 <=? dg) eqn:E6.
    + apply Z.leb_le in E6.
      destruct (5 <=? dg) eqn:E5; [reflexivity|apply Z.leb_gt in E5; lia].
    + apply Z.leb_gt in E6. destruct (dg =? 5) eqn:E5.
      * apply Z.eqb_eq in E5. rewrite E5. change (5 <=? 5) with true.
        destruct (1 <? D); reflexivity.
      * apply Z.eqb_neq in E5.
        destruct (5 <=? dg) eqn:E5'; [apply Z.leb_le in E5'; lia|].
        reflexivity.
  - (* at least one digit is kept *)
    assert (HLp : 0 < L + e + p).
    { apply andb_false_iff in EW as [E|E]; apply Z.eqb_neq in E.
      - lia.
      - assert (L <> - e) by (intros H; apply HLn in H; contradiction). lia. }
    assert (Hwne : w <> []).
    { intros H. rewrite H in Hwl. change (GoInt.len (@nil ascii)) with 0 in Hwl. lia. }
    destruct (signed_number_sign_digits i w Hwne Hwd) as [_ Hat].
    fold buf in Hat. rewrite Hat.
    destruct (i =? 0) eqn:Ei0; [apply Z.eqb_eq in Ei0; contradiction|].
    rewrite Z.add_0_r, Hwv.
    (* the digit before the rounding point *)
    assert (Hnb : (if p =? 0
                   then Str.slice part1 (L + e - 1) (L + e)
                   else Str.slice part2 (p - 1) p)
                  = Some [Digits.digit_char (q mod 10)]).
    { destruct (digit_at s (L + e + p - 1) Hds ltac:(fold L; lia)) as (c' & Hc1 & Hc2 & Hc3).
      assert (Hc' : c' = Digits.digit_char (q mod 10)).
      { rewrite (digit_char_of c' Hc2), Hc3, Hvs. fold L. unfold q, D.
        do 4 f_equal. lia. }
      subst c'. replace (L + e + p - 1 + 1) with (L + e + p) in Hc1 by lia.
      destruct (p =? 0) eqn:Ep0.
      - apply Z.eqb_eq in Ep0. subst p.
        rewrite <- (slice_app_l part1 part2) by lia. rewrite <- Hs12.
        replace (L + e + 0 - 1) with (L + e - 1) in Hc1 by lia.
        replace (L + e + 0) with (L + e) in Hc1 by lia. exact Hc1.
      - apply Z.eqb_neq in Ep0.
        rewrite <- (slice_app_r part1 part2 (p - 1) p) by lia.
        rewrite <- Hs12, Hl1.
        replace (L + e + (p - 1)) with (L + e + p - 1) by lia. exact Hc1. }
    rewrite Hnb.
    assert (Hq10 : 0 <= q mod 10 <= 9)
      by (pose proof (Z.mod_pos_bound q 10 ltac:(lia)); lia).
    destruct (one_of_digit_tests _ (is_digit_char _ Hq10)) as (_ & _ & T3).
    rewrite T3, digit_val_char, odd_mod_10 by exact Hq10.
    unfold up.
    destruct (6 <=? dg); cbn [orb]; [reflexivity|].
    destruct (dg =? 5); cbn [andb]; [|rewrite Z.add_0_r; reflexivity].
    destruct (1 <? D); cbn [orb]; [reflexivity|].
    destruct (Z.odd q); [reflexivity|rewrite Z.add_0_r; reflexivity].
Qed.

Lemma first_discarded_digit a D :
  0 <= a -> 1 <= D ->
  let q := a / 10 ^ D in
  let dg := (a / 10 ^ (D - 1)) mod 10 in
  exists r1,
    a = q * 10 ^ D + dg * 10 ^ (D - 1) + r1
    /\ 0 <= r1 < 10 ^ (D - 1) /\ 0 <= dg <= 9 /\ 0 <= q
    /\ 10 ^ D = 10 * 10 ^ (D - 1) /\ 0 < 10 ^ (D - 1).
Proof.
  intros Ha HD q dg.
  assert (HP1 : 0 < 10 ^ (D - 1)) by (apply Z.pow_pos_nonneg; lia).
  assert (HP : 10 ^ D = 10 * 10 ^ (D - 1)).
  { rewrite <- Z.pow_succ_r by lia. f_equal. lia. }
  pose proof (Z.div_mod a (10 ^ (D - 1)) ltac:(lia)) as H1.
  pose proof (Z.mod_pos_bound a (10 ^ (D - 1)) HP1) as H2.
  pose proof (Z.div_mod (a / 10 ^ (D - 1)) 10 ltac:(lia)) as H3.
  pose proof (Z.mod_pos_bound (a / 10 ^ (D - 1)) 10 ltac:(lia)) as H4.
  assert (Hq : a / 10 ^ (D - 1) / 10 = q).
  { unfold q. rewrite Z.div_div by lia. rewrite HP. f_equal. lia. }
  rewrite Hq in H3. fold dg in H3, H4.
  exists (a mod 10 ^ (D - 1)).
  split; [rewrite HP; nia|].
  split; [lia|]. split; [lia|].
  split; [unfold q; apply Z.div_pos; [lia|apply Z.pow_pos_nonneg; lia]|].
  split; [exact HP|exact HP1].
Qed.



(** X21.  Whenever [RoundToNearestEven] returns on a nonzero decimal with
    more than [precision] fractional digits, the result has exponent
    [- precision] and is a nearest multiple of the unit: at most half a
    unit away from the value (a nil significand standing for zero). *)
Theorem RoundToNearestEven_rounds_to_nearest (d r : Decimal) (p : Z) :
  0 <= p -> sig d <> 0 ->
  GoInt.min_int < exponent d -> exponent d < - p ->
  GoInt.len (BigInt.String (sig d)) <= GoInt.max_int ->
  RoundToNearestEven d p = Some r ->
  exponent r = - p
  /\ 2 * Z.abs (sig d - sig r * 10 ^ (- exponent d - p))
     <= 10 ^ (- exponent d - p).
Proof.
  intros Hp Hs He He' Hl.
  rewrite (RoundToNearestEven_arith d p Hp Hs He He' Hl). cbv zeta.
  set (a := Z.abs (sig d)). set (e := exponent d) in *.
  set (D := - e - p).
  assert (Ha : 0 < a) by (unfold a; lia).
  destruct (first_discarded_digit a D ltac:(lia) ltac:(unfold D; lia))
    as (r1 & Hdec & Hr1 & Hdg & Hq & HP & HP1).
  cbv zeta in Hdec, Hdg, Hq.
  set (q := a / 10 ^ D) in *. set (dg := (a / 10 ^ (D - 1)) mod 10) in *.
  set (P1 := 10 ^ (D - 1)) in *.
  assert (Hia : Z.abs (sig d) = a) by reflexivity.
  destruct ((p =? 0) && (GoInt.len (Digits.of_Z a) =? - e)) eqn:EW.
  - apply andb_prop in EW as [Ep0 En]. apply Z.eqb_eq in Ep0, En.
    destruct (5 <=? dg) eqn:E5; [discriminate|]. apply Z.leb_gt in E5.
    intros H. inversion H; subst r. cbn [exponent sig integer].
    split; [lia|].
    pose proof (of_Z_length a Ha) as [_ Hub]. rewrite En in Hub.
    replace (- e) with D in Hub by (unfold D; lia).
    assert (Hq0 : q = 0) by (unfold q; apply Z.div_small; lia).
    rewrite Z.mul_0_l, Z.sub_0_r, Hia, HP. nia.
  - intros H. inversion H; subst r. cbn [exponent sig integer].
    split; [reflexivity|].
    set (up := (6 <=? dg) || ((dg =? 5) && ((1 <? D) || Z.odd q))) in *.
    assert (Hup : (up = true /\ 5 <= dg)
                  \/ (up = false /\ (dg <= 4 \/ (dg = 5 /\ D = 1)))).
    { unfold up. destruct (6 <=? dg) eqn:E6.
      - apply Z.leb_le in E6. left. split; [reflexivity|lia].
      - apply Z.leb_gt in E6. cbn [orb]. destruct (dg =? 5) eqn:E5.
        + apply Z.eqb_eq in E5. cbn [andb].
          destruct (1 <? D) eqn:ED.
          * left. split; [reflexivity|lia].
          * apply Z.ltb_ge in ED. cbn [orb]. destruct (Z.odd q).
            -- left. split; [reflexivity|lia].
            -- right. split; [reflexivity|]. right. unfold D in *. lia.
        + apply Z.eqb_neq in E5. right. split; [reflexivity|]. left. lia. }
    assert (HD1 : D = 1 -> P1 = 1 /\ r1 = 0).
    { intros H1. unfold P1 in *. rewrite H1 in *. cbn in Hr1 |- *. lia. }
    assert (Habs : forall u, (u = 0 \/ u = 1) ->
              Z.abs (sig d - (Z.sgn (sig d) * q + Z.sgn (sig d) * u) * 10 ^ D)
              = Z.abs (a - (q + u) * 10 ^ D)).
    { intros u Hu. set (sg := Z.sgn (sig d)).
      assert (Hsa : sig d = sg * a) by (unfold sg, a; lia).
      assert (Hs1 : Z.abs sg = 1) by (unfold sg; lia).
      rewrite Hsa.
      replace (sg * a - (sg * q + sg * u) * 10 ^ D)
        with (sg * (a - (q + u) * 10 ^ D)) by ring.
      rewrite Z.abs_mul, Hs1. lia. }
    destruct Hup as [[-> H5]|[-> H4]].
    + replace (Z.sgn (sig d) * q + Z.sgn (sig d))
        with (Z.sgn (sig d) * q + Z.sgn (sig d) * 1) by ring.
      rewrite (Habs 1) by auto. rewrite HP. nia.
    + replace (Z.sgn (sig d) * q + 0)
        with (Z.sgn (sig d) * q + Z.sgn (sig d) * 0) by ring.
      rewrite (Habs 0) by auto. rewrite HP.
      destruct H4 as [H4|[H4 H1]]; [nia|].
      destruct (HD1 H1) as [HP1' Hr0]. rewrite HP1' in *. nia.
Qed.

(** [RoundToNearestEven_rounds_to_nearest] at [-2.675] and precision 2. *)
Lemma RoundToNearestEven_rounds_to_nearest_witness :
  0 <= 2 /\ sig (mkDecimal (Some (-2675)) (-3)) <> 0
  /\ GoInt.min_int < -3 /\ -3 < - 2
  /\ GoInt.len (BigInt.String (-2675)) <= GoInt.max_int
  /\ RoundToNearestEven (mkDecimal (Some (-2675)) (-3)) 2
     = Some (mkDecimal (Some (-268)) (-2))
  /\ - 2 = - 2
  /\ 2 * Z.abs (-2675 - -268 * 10 ^ (- -3 - 2)) <= 10 ^ (- -3 - 2).
Proof.
  assert (H0 : 0 <= 2) by discriminate.
  assert (H1 : sig (mkDecimal (Some (-2675)) (-3)) <> 0) by discriminate.
  assert (H2 : GoInt.min_int < -3) by reflexivity.
  assert (H3 : -3 < - 2) by reflexivity.
  assert (H4 : GoInt.len (BigInt.String (-2675)) <= GoInt.max_int) by discriminate.
  assert (H5 : RoundToNearestEven (mkDecimal (Some (-2675)) (-3)) 2
               = Some (mkDecimal (Some (-268)) (-2))) by reflexivity.
  repeat (split; [assumption|]).
  exact (RoundToNearestEven_rounds_to_nearest
           (mkDecimal (Some (-2675)) (-3)) _ 2 H0 H1 H2 H3 H4 H5).
Defined.



(** ** Sign, zero test and construction from a float *)

(** X23.  [Sign], [IsZero] and comparison with a fresh zero agree for
    every decimal, whatever its exponent: [d.Cmp(new(Decimal))] returns
    what [d.Sign()] returns, the sign of the significand, and [IsZero]
    holds exactly when that is 0. *)
Theorem Cmp_with_zero_is_Sign (d : Decimal) :
  exists d' z',
    Cmp d new_Decimal = Some (Z.sgn (sig d), (d', z'))
    /\ Sign d = Some (Z.sgn (sig d), ensureInitialized d)
    /\ IsZero d = Some (Z.sgn (sig d) =? 0, ensureInitialized d)
    /\ num_eq d' d.
Proof.
  assert (Hs : 0 <= exponent d * exponent new_Decimal) by (cbn; lia).
  unfold Cmp. destruct (align_same_sign_values d new_Decimal Hs)
    as (x' & y' & Ha & _ & _ & Hx & _).
  pose proof (align_same_sign d new_Decimal Hs) as Ha'. rewrite Ha' in Ha.
  inversion Ha; subst x' y'. rewrite Ha'. cbn [deref integer].
  do 2 eexists. split; [|split; [|split; [|exact Hx]]].
  - do 2 f_equal. unfold scaled at 2. cbn [sig integer new_Decimal].
    rewrite Z.mul_0_l. unfold BigInt.Cmp, scaled.
    assert (HP : 0 < 10 ^ (exponent d - Z.min (exponent d) (exponent new_Decimal)))
      by (apply Z.pow_pos_nonneg; lia).
    destruct (Z.compare_spec
                (sig d * 10 ^ (exponent d - Z.min (exponent d) (exponent new_Decimal))) 0);
      nia.
  - unfold Sign. rewrite deref_ensureInitialized. reflexivity.
  - unfold IsZero. rewrite deref_ensureInitialized. reflexivity.
Qed.

Lemma SetString_success_independent (x x' d : Decimal) (s : Str.t) :
  SetString x s = Some (d, true) -> SetString x' s = Some (d, true).
Proof.
  unfold SetString. rewrite !deref_ensureInitialized.
  destruct (negb (GoInt.len (Pattern.FindStringSubmatch s) =? 6)); [discriminate|].
  destruct (BigInt.SetString _); [|discriminate].
  intros H. inversion H. reflexivity.
Qed.

(** X24.  What [SetString] stores on success does not depend on the
    previous value of the receiver, and [New] is [Parse] on the text
    [FormatFloat] produces: when that text is in the grammar [New] returns
    the decimal [Parse] returns, otherwise it returns zero without
    reporting anything. *)
Theorem New_agrees_with_Parse
    (format_finite : spec_float -> Str.t) (y : spec_float) :
  (in_grammar (FormatFloat format_finite y) ->
   exists d,
     Parse (FormatFloat format_finite y) = Some (inl d)
     /\ New format_finite y = Some d
     /\ forall x, SetFloat64 format_finite x y = Some d)
  /\ (~ in_grammar (FormatFloat format_finite y) ->
      New format_finite y = Some (mkDecimal (Some 0) 0)
      /\ forall x, SetFloat64 format_finite x y = Some (ensureInitialized x)).
Proof.
  set (s := FormatFloat format_finite y). split.
  - intros (g1 & g2 & g3 & g4 & g5 & Hm).
    pose proof (FindStringSubmatch_complete _ _ _ _ _ _ Hm) as Hf.
    destruct (SetString_total new_Decimal s) as ([d ok] & Hs).
    destruct ok.
    + exists d. unfold Parse, New, SetFloat64. fold s. rewrite Hs.
      split; [reflexivity|].
      split; [rewrite (SetString_success_independent _ _ _ _ Hs); reflexivity|].
      intros x. rewrite (SetString_success_independent _ _ _ _ Hs). reflexivity.
    + apply SetString_failure in Hs as [Hs _]. rewrite Hs in Hf. discriminate.
  - intros Hn.
    assert (Hf : Pattern.FindStringSubmatch s = []).
    { destruct (FindStringSubmatch_sound s) as [Hf|(g1 & g2 & g3 & g4 & g5 & _ & Hm)];
        [exact Hf|].
      exfalso. apply Hn. exists g1, g2, g3, g4, g5. exact Hm. }
    unfold New, SetFloat64. fold s.
    split; [|intros x]; rewrite (SetString_no_match _ _ Hf), ensureInitialized_idem;
      reflexivity.
Qed.

(** [New_agrees_with_Parse] with every finite float printed as ["0.25"],
    at a finite float and at +Inf. *)
Lemma New_agrees_with_Parse_witness :
  in_grammar (FormatFloat (fun _ => $"0.25") (S754_zero false))
  /\ ~ in_grammar (FormatFloat (fun _ => $"0.25") (S754_infinity false))
  /\ (exists d,
        Parse (FormatFloat (fun _ => $"0.25") (S754_zero false)) = Some (inl d)
        /\ New (fun _ => $"0.25") (S754_zero false) = Some d
        /\ forall x, SetFloat64 (fun _ => $"0.25") x (S754_zero false) = Some d)
  /\ New (fun _ => $"0.25") (S754_infinity false) = Some (mkDecimal (Some 0) 0).
Proof.
  assert (H1 : in_grammar (FormatFloat (fun _ => $"0.25") (S754_zero false))).
  { exists $"0", $".25", $"25", [], []. split; [reflexivity|]. split.
    - exists [], $"0". repeat split; auto. discriminate.
    - split; [right; repeat split; discriminate|left; auto]. }
  assert (H2 : ~ in_grammar (FormatFloat (fun _ => $"0.25") (S754_infinity false))).
  { intros (g1 & g2 & g3 & g4 & g5 & Hm).
    apply FindStringSubmatch_complete in Hm. discriminate Hm. }
  split; [exact H1|]. split; [exact H2|].
  split.
  - exact (proj1 (New_agrees_with_Parse (fun _ => $"0.25") (S754_zero false)) H1).
  - exact (proj1 (proj2 (New_agrees_with_Parse (fun _ => $"0.25")
                           (S754_infinity false)) H2)).
Defined.
